(** * metaseq.integration.chipseq: a shallow embedding and its properties

    The development follows [metaseq/integration/chipseq.py].

    The embedding:
    - [Py]        the fragment of Python the module relies on: exceptions,
                  sequence indexing and slicing, and a state-and-exception
                  monad for function bodies;
    - [Dispatch]  [Chipseq.callback], the pick-event handler;
    - [Numpy]     the numpy operations the module calls, generic in the
                  element arithmetic, with two instances: IEEE binary64
                  (what the program runs on) and exact real arithmetic
                  (what the numerical identities are stated in);
    - [Dict]      [dict] objects, which live in a store and are passed by
                  reference;
    - [Source]    the signal source, a collaborator;
    - [Shift]     [xcorr] and [estimate_shift];
    - [Diff]      [Chipseq.diff_array];
    - [Strand]    [add_strand], the local function of [estimate_shift];
    - [Plot]      what [Chipseq.plot] does to the strip line;
    - [Script]    the block that runs when the module is a script.

    The properties: [DispatchFacts], [ShiftFacts], [DiffFacts], which hold
    the properties that the specification states, and [SelectionFacts],
    [DiffArrayFacts], [LagFacts], [CorrelationFacts], [StrandFacts],
    [PlotFacts], [ScriptFacts], which hold further properties of the code.

    Collaborators that live outside the module (the signal source, the
    mini-browser, pybedtools, [nice_log]) appear as record fields, section
    variables or recorded actions. *)

From Stdlib Require Import Floats.
From Stdlib Require Import ZArith Reals Lra Lia List.
From stdpp Require Import gmap strings list.
From Equations Require Import Equations.

(* ===================================================================== *)
(** ** Python fragment                                                    *)
(* ===================================================================== *)

Module Py.

(** The exceptions that the modelled code can raise. *)
Inductive exn : Type :=
| KeyError (key : string)
| IndexError
| AssertionError
| ValueError
| TypeError
| NameError (name : string).

Inductive res (A : Type) : Type :=
| Ok (a : A)
| Raise (e : exn).
Arguments Ok {A} a.
Arguments Raise {A} e.

Definition res_bind {A B} (r : res A) (k : A -> res B) : res B :=
  match r with
  | Ok a => k a
  | Raise e => Raise e
  end.

(** A method body: it reads and updates a state of type [S], and either
    returns a value or raises.  The state reached when an exception
    propagates is kept, since the caller can observe it. *)
Definition M (S A : Type) : Type := S -> res A * S.

Definition ret {S A} (a : A) : M S A := fun s => (Ok a, s).
Definition raise {S A} (e : exn) : M S A := fun s => (Raise e, s).
Definition bind {S A B} (m : M S A) (k : A -> M S B) : M S B :=
  fun s => match m s with
           | (Ok a, s') => k a s'
           | (Raise e, s') => (Raise e, s')
           end.
Definition lift {S A} (r : res A) : M S A := fun s => (r, s).
Definition modify {S} (f : S -> S) : M S unit := fun s => (Ok tt, f s).

(** [for x in xs: body x] *)
Fixpoint for_ {S A} (xs : list A) (body : A -> M S unit) : M S unit :=
  match xs with
  | [] => ret tt
  | x :: xs' => bind (body x) (fun _ => for_ xs' body)
  end.

(** [l[k]] on a list or a one-dimensional array: a negative index counts
    from the end, and an index outside [-len, len) raises [IndexError]. *)
Definition getitem {A} (l : list A) (k : Z) : res A :=
  let n := Z.of_nat (length l) in
  let k' := if (k <? 0)%Z then (k + n)%Z else k in
  if ((0 <=? k') && (k' <? n))%Z
  then match l !! Z.to_nat k' with
       | Some a => Ok a
       | None => Raise IndexError
       end
  else Raise IndexError.

(** One bound of a slice [l[a:b]]: negative bounds count from the end
    and everything is clamped to [0, len]. *)
Definition slice_bound (n k : Z) : nat :=
  let k' := if (k <? 0)%Z then (k + n)%Z else k in
  Z.to_nat (Z.min n (Z.max 0 k')).

(** [l[a:b]] with unit step; it never raises. *)
Definition slice {A} (l : list A) (a b : Z) : list A :=
  let n := Z.of_nat (length l) in
  let lo := slice_bound n a in
  let hi := slice_bound n b in
  take (hi - lo) (drop lo l).

(** [l[::-1]] *)
Definition reversed {A} (l : list A) : list A := reverse l.

End Py.

Import Py.

Declare Scope py_scope.
Delimit Scope py_scope with py.
Notation "x <- m ;; k" := (bind m (fun x => k))
(at level 100, m at next level, right associativity) : py_scope.
Notation "m ;;; k" := (bind m (fun _ => k))
(at level 100, right associativity) : py_scope.

(* ===================================================================== *)
(** ** Chipseq.callback                                                   *)
(* ===================================================================== *)

Module Dispatch.

(** A [pybedtools.Interval], as far as the module looks into it. *)
Record Interval : Type := mkInterval
  { chrom : string; start : Z; stop : Z; strand : string }.

(** The strip line that [Chipseq.plot] decorates with
    [line.features = self.features] and [line.ind = row_order]. *)
Record Artist : Type := mkArtist
  { features : list Interval; ind : list Z }.

(** A matplotlib pick event: the picked artist and [event.ind], the
    indices of the picked points. *)
Record PickEvent : Type := mkPickEvent
  { ev_artist : Artist; ev_ind : list Z }.

(** What the callback does to the outside world, in order. *)
Inductive action : Type :=
| PrintNotice (limit : Z)     (* "more than %s genes selected; ..." *)
| PrintFeature (f : Interval) (* print feature, *)
| MiniPlot (f : Interval).    (* self.minibrowser.plot(feature) *)

Definition emit (a : action) : M (list action) unit :=
  modify (fun tr => tr ++ [a]).

(** [artist.features[ind[::-1][i]]] *)
Definition resolve (artist : Artist) (i : Z) : res Interval :=
  res_bind (getitem (reversed (ind artist)) i)
           (fun row => getitem (features artist) row).

Definition callback (event : PickEvent) : M (list action) unit :=
  (let artist := ev_artist event in
   let limit := 5%Z in
   browser <- (if (limit <? Z.of_nat (length (ev_ind event)))%Z
               then emit (PrintNotice limit) ;;; ret false
               else ret true) ;;
   for_ (ev_ind event) (fun i =>
     feature <- lift (resolve artist i) ;;
     emit (PrintFeature feature) ;;;
     if (browser : bool) then emit (MiniPlot feature) else ret tt))%py.


(** The features handed to [minibrowser.plot], in call order. *)
Definition plot_calls (tr : list action) : list Interval :=
  omap (fun a => match a with MiniPlot f => Some f | _ => None end) tr.

(** Resolution of a whole selection, left to right, stopping at the first
    index that raises. *)
Fixpoint resolve_all (artist : Artist) (picked : list Z) : res (list Interval) :=
  match picked with
  | [] => Ok []
  | i :: rest =>
      res_bind (resolve artist i) (fun f =>
      res_bind (resolve_all artist rest) (fun fs => Ok (f :: fs)))
  end.


End Dispatch.

(* ===================================================================== *)
(** ** numpy                                                              *)
(* ===================================================================== *)

Module Numpy.

(** The element arithmetic of a float array.  Only operations: the code is
    the same whatever the arithmetic satisfies. *)
Class Arith (A : Type) : Type := mkArith
  { zero : A;
    add : A -> A -> A;
    sub : A -> A -> A;
    mul : A -> A -> A;
    div : A -> A -> A;
    sqrt : A -> A;
    gtb : A -> A -> bool;    (* x > y *)
    of_int : Z -> A }.       (* float(n) for a Python int n *)

(** IEEE 754 binary64, numpy's [float64] and Python's [float]. *)
#[export] Instance float64 : Arith PrimFloat.float :=
  {| zero := PrimFloat.zero;
     add := PrimFloat.add;
     sub := PrimFloat.sub;
     mul := PrimFloat.mul;
     div := PrimFloat.div;
     sqrt := PrimFloat.sqrt;
     gtb := fun x y => PrimFloat.ltb y x;
     of_int := fun n => SF2Prim (binary_normalize prec emax n 0 false) |}.

(** Exact real arithmetic: binary64 without rounding, overflow or NaN. *)
#[export] Instance exact : Arith R :=
  {| zero := 0%R;
     add := Rplus;
     sub := Rminus;
     mul := Rmult;
     div := Rdiv;
     sqrt := R_sqrt.sqrt;
     gtb := fun x y => if Rlt_dec y x then true else false;
     of_int := IZR |}.

(** A two-dimensional array: its rows and the length they share, which
    survives when there are no rows (shape [(0, ncols)]). *)
Record ndarray (A : Type) : Type := mkArray
  { ncols : nat; rows : list (list A) }.
Arguments mkArray {A} ncols rows.
Arguments ncols {A} _.
Arguments rows {A} _.

Definition nrows {A} (a : ndarray A) : nat := length (rows a).

(** [a.shape] *)
Definition shape {A} (a : ndarray A) : nat * nat := (nrows a, ncols a).

(** Every row has the announced length. *)
Definition well_shaped {A} (a : ndarray A) : Prop :=
  Forall (fun r => length r = ncols a) (rows a).

(** [np.arange(lo, hi)] on integers. *)
Definition arange (lo hi : Z) : list Z :=
  map (fun k => (lo + Z.of_nat k)%Z) (seq 0 (Z.to_nat (hi - lo))).

(** Broadcasting of one axis: equal lengths, or one of them is 1. *)
Definition broadcast_len (m n : nat) : res nat :=
  if (m =? n)%nat then Ok m
  else if (m =? 1)%nat then Ok n
  else if (n =? 1)%nat then Ok m
  else Raise ValueError.

(** A vector of length [n] or 1 seen as a vector of length [n]. *)
Definition stretch {A} (n : nat) (l : list A) : list A :=
  if (length l =? n)%nat then l
  else match l with
       | [x] => repeat x n
       | _ => l
       end.

(** [a & b] on boolean vectors. *)
Definition logical_and (a b : list bool) : res (list bool) :=
  res_bind (broadcast_len (length a) (length b)) (fun n =>
  Ok (zip_with andb (stretch n a) (stretch n b))).

(** [a[mask]] with a boolean mask over the rows. *)
Fixpoint select {A} (l : list A) (mask : list bool) : list A :=
  match l, mask with
  | x :: l', b :: mask' => if b then x :: select l' mask' else select l' mask'
  | _, _ => []
  end.

Definition mask_rows {A} (a : ndarray A) (mask : list bool) : res (ndarray A) :=
  if (length mask =? nrows a)%nat
  then Ok (mkArray (ncols a) (select (rows a) mask))
  else Raise IndexError.

(** [sum(mask)]: Python's [sum] over a boolean vector counts the [True]s. *)
Definition count_true (mask : list bool) : nat :=
  length (List.filter (fun b : bool => b) mask).

(** [a[i] = v] on a two-dimensional array: [v] must have the row length,
    or length 1, in which case it is repeated. *)
Definition set_row {A} (a : ndarray A) (i : nat) (v : list A) : res (ndarray A) :=
  if (i <? nrows a)%nat
  then res_bind (broadcast_len (length v) (ncols a)) (fun n =>
       if (n =? ncols a)%nat
       then Ok (mkArray (ncols a) (<[i := stretch (ncols a) v]> (rows a)))
       else Raise ValueError)
  else Raise IndexError.

Section Elementwise.
Context {A : Type} `{Arith A}.

(** [np.zeros((n, m))] *)
Definition zeros (n : nat) (m : Z) : res (ndarray A) :=
  if (m <? 0)%Z then Raise ValueError
  else Ok (mkArray (Z.to_nat m) (repeat (repeat zero (Z.to_nat m)) n)).

(** The sum of the products of two vectors over their common length, added
    left to right (the order in which numpy adds is its own business; it
    matters to rounding only). *)
Definition inner (x y : list A) : A :=
  fold_left (fun acc p => add acc (mul (fst p) (snd p))) (zip x y) zero.

(** [np.dot(x, y)] on vectors. *)
Definition dot (x y : list A) : res A :=
  if (length x =? length y)%nat then Ok (inner x y) else Raise ValueError.

(** [a.sum()] of a vector. *)
Definition array_sum (x : list A) : A := fold_left add x zero.

(** [a.sum(axis=1)] *)
Definition sum_axis1 (a : ndarray A) : list A := map array_sum (rows a).

(** The correlation of [x] and [y] at lag [k]: the sum of [x[n+k] * y[n]]
    over the [n] for which both exist. *)
Definition correlate_at (x y : list A) (k : Z) : A :=
  if (0 <=? k)%Z then inner (drop (Z.to_nat k) x) y
  else inner x (drop (Z.to_nat (- k)) y).

(** [np.correlate(x, y, mode=2)], the full correlation: entry [j] is the
    lag [j - (len(y) - 1)]; an empty argument is refused. *)
Definition correlate_full (x y : list A) : res (list A) :=
  match x, y with
  | [], _ | _, [] => Raise ValueError
  | _, _ =>
      Ok (map (fun j => correlate_at x y (Z.of_nat j - (Z.of_nat (length y) - 1)))
              (seq 0 (length x + length y - 1)))
  end.

(** [a / s] and [a /= s] with a scalar [s]. *)
Definition div_scalar (a : ndarray A) (s : A) : ndarray A :=
  mkArray (ncols a) (map (map (fun v => div v s)) (rows a)).

(** [a - b] with broadcasting on both axes. *)
Definition subtract (a b : ndarray A) : res (ndarray A) :=
  res_bind (broadcast_len (nrows a) (nrows b)) (fun r =>
  res_bind (broadcast_len (ncols a) (ncols b)) (fun c =>
  Ok (mkArray c
        (zip_with (fun ra rb => zip_with sub (stretch c ra) (stretch c rb))
                  (stretch r (rows a)) (stretch r (rows b)))))).

(** [a.astype(float)]: the arrays of the model hold floats already. *)
Definition astype_float (a : ndarray A) : ndarray A := a.

End Elementwise.

End Numpy.

Import Numpy.

(* ===================================================================== *)
(** ** dict objects                                                       *)
(* ===================================================================== *)

Module Dict.

(** The values that keyword arguments carry. *)
Inductive pyval : Type :=
| VInt (n : Z)
| VStr (s : string).

(** A [dict] with string keys.  Dicts are objects: a variable holds a
    reference (a number), and two variables may hold the same one. *)
Abbreviation dict := (gmap string pyval).
Abbreviation store := (gmap nat (gmap string pyval)).

(** States that contain a store of dicts. *)
Class HasStore (S : Type) : Type :=
  { store_of : S -> store;
    with_store : store -> S -> S }.

Section Ops.
Context {S : Type} `{HasStore S}.

(** The dict behind a reference (a reference always denotes an object; one
    the store does not know reads as the empty dict). *)
Definition deref (s : S) (l : nat) : dict := default ∅ (store_of s !! l).

Definition read (l : nat) : M S dict := fun s => (Ok (deref s l), s).

Definition write (l : nat) (d : dict) : M S unit :=
  fun s => (Ok tt, with_store (<[l := d]> (store_of s)) s).

(** A new object, at a reference not in use. *)
Definition alloc (d : dict) : M S nat :=
  fun s => let l := fresh (dom (store_of s)) in
           (Ok l, with_store (<[l := d]> (store_of s)) s).

(** [d.copy()] *)
Definition copy (l : nat) : M S nat :=
  (d <- read l ;; alloc d)%py.

(** [d.pop(key)] *)
Definition pop (l : nat) (key : string) : M S pyval :=
  (d <- read l ;;
   match d !! key with
   | Some v => write l (delete key d) ;;; ret v
   | None => raise (KeyError key)
   end)%py.

(** [d.pop(key, None)] *)
Definition pop_default (l : nat) (key : string) : M S (option pyval) :=
  (d <- read l ;;
   match d !! key with
   | Some v => write l (delete key d) ;;; ret (Some v)
   | None => ret None
   end)%py.

(** [key in d] *)
Definition contains (l : nat) (key : string) : M S bool :=
  (d <- read l ;; ret (bool_decide (is_Some (d !! key))))%py.

(** [d[key] = v] *)
Definition setitem (l : nat) (key : string) (v : pyval) : M S unit :=
  (d <- read l ;; write l (<[key := v]> d))%py.

End Ops.

End Dict.

Import Dict.

(* ===================================================================== *)
(** ** The signal source                                                  *)
(* ===================================================================== *)

Module Source.

Import Dispatch.

(** A [genomic_signal] object, seen from this module.  [array] receives
    the features and the keyword arguments of the call; it may raise. *)
Record Signal (A : Type) : Type := mkSignal
  { genome : string;
    array : list Interval -> gmap string pyval -> res (ndarray A);
    library_size : Z }.
Arguments genome {A} _.
Arguments array {A} _ _ _.
Arguments library_size {A} _.

(** Modelled from the spec: [genomic_signal.million_mapped_reads], which is
    not part of this module; the signal source reports its library size
    (total mapped reads) and the divisor is [library_size / 1e6]. *)
Definition million_mapped_reads {A} `{Arith A} (sig : Signal A) : A :=
  div (of_int (library_size sig)) (of_int 1000000).

End Source.

Import Source.

(* ===================================================================== *)
(** ** xcorr and estimate_shift                                           *)
(* ===================================================================== *)

Module Shift.

Import Dispatch.

(** What [estimate_shift] writes to [sys.stderr] when [verbose] is set. *)
Inductive message : Type :=
| GettingPlus (nwindows : Z)    (* "Getting plus-strand signal for %s regions..." *)
| GettingMinus (nwindows : Z)   (* "Getting minus-strand signal for %s regions..." *)
| Running (passed : nat).       (* "Running cross-correlation on %s regions ..." *)

(** The state [estimate_shift] runs in: the dict objects, the text written
    to standard error, and whether the module global [sys] is bound (the
    module imports [sys] only in its [__main__] block). *)
Record world : Type := mkWorld
  { dicts : gmap nat (gmap string pyval);
    stderr : list message;
    sys_bound : bool }.

#[export] Instance world_store : HasStore world :=
  {| store_of := dicts;
     with_store := fun h w => mkWorld h (stderr w) (sys_bound w) |}.

(** [sys.stderr.write(msg); sys.stderr.flush()] *)
Definition stderr_write (msg : message) : M world unit :=
  fun w => if sys_bound w
           then (Ok tt, mkWorld (dicts w) (stderr w ++ [msg]) (sys_bound w))
           else (Raise (NameError "sys"), w).

Section WithArith.
Context {A : Type} `{Arith A}.

Definition xcorr (x y : list A) (maxlags : Z) : res (list A) :=
  let xlen := length x in
  let ylen := length y in
  if negb (xlen =? ylen)%nat then Raise AssertionError else
  res_bind (correlate_full x y) (fun c =>
  (* normalize *)
  res_bind (dot x x) (fun xx =>
  res_bind (dot y y) (fun yy =>
  let c := map (fun v => div v (sqrt (mul xx yy))) c in
  let lags := arange (- maxlags) (maxlags + 1) in
  let c := slice c (Z.of_nat xlen - 1 - maxlags) (Z.of_nat xlen + maxlags) in
  Ok c))).

(** The loop [for i, xy in enumerate(izip(plus[enough], minus[enough]))],
    which fills [results] row by row, starting at row [i]. *)
Fixpoint fill_results (results : ndarray A) (i : nat)
    (pairs : list (list A * list A)) (maxlag : Z) : res (ndarray A) :=
  match pairs with
  | [] => Ok results
  | (x, y) :: pairs' =>
      res_bind (xcorr x y maxlag) (fun c =>
      res_bind (set_row results i c) (fun results' =>
      fill_results results' (S i) pairs' maxlag))
  end.

(** pybedtools, which draws the windows: [window_maker genome w] lists the
    windows of width [w], and [shuffle genome ws] moves them at random. *)
Variable window_maker : string -> Z -> list Interval.
Variable shuffle : string -> list Interval -> list Interval.

Definition estimate_shift (signal : Signal A) (genome : option string)
    (windowsize : Z) (thresh : option A) (nwindows : Z) (maxlag : Z)
    (array_kwargs : option nat) (verbose : bool)
  : M world (list Z * ndarray A) :=
  (let thresh := default (of_int 0) thresh in
   let genome := default (Source.genome signal) genome in
   array_kwargs <- match array_kwargs with
                   | None => alloc ∅
                   | Some l => ret l
                   end ;;
   pop_default array_kwargs "read_strand" ;;;
   has_bins <- contains array_kwargs "bins" ;;
   (if has_bins then ret tt
    else setitem array_kwargs "bins" (VInt windowsize)) ;;;
   let windows := window_maker genome windowsize in
   let random_subset := shuffle genome (slice windows 0 nwindows) in
   (if verbose then stderr_write (GettingPlus nwindows) else ret tt) ;;;
   kwargs <- read array_kwargs ;;
   plus <- lift (array signal random_subset
                   (<["read_strand" := VStr "+"]> kwargs)) ;;
   let plus := astype_float plus in
   (if verbose then stderr_write (GettingMinus nwindows) else ret tt) ;;;
   kwargs <- read array_kwargs ;;
   minus <- lift (array signal random_subset
                    (<["read_strand" := VStr "-"]> kwargs)) ;;
   let minus := astype_float minus in
   (* only do cross-correlation if you have enough reads to do so *)
   enough <- lift (logical_and
       (map (fun s => gtb (div s (of_int windowsize)) thresh) (sum_axis1 plus))
       (map (fun s => gtb (div s (of_int windowsize)) thresh) (sum_axis1 minus))) ;;
   (if verbose then stderr_write (Running (count_true enough)) else ret tt) ;;;
   results <- lift (zeros (count_true enough) (2 * maxlag + 1)) ;;
   plus_enough <- lift (mask_rows plus enough) ;;
   minus_enough <- lift (mask_rows minus enough) ;;
   results <- lift (fill_results results 0
                      (zip (rows plus_enough) (rows minus_enough)) maxlag) ;;
   let lags := arange (- maxlag) (maxlag + 1) in
   ret (lags, results))%py.

End WithArith.

End Shift.

(* ===================================================================== *)
(** ** Chipseq.diff_array                                                 *)
(* ===================================================================== *)

Module Diff.

Import Dispatch.

(** The attributes of a [Chipseq] object that [diff_array] reads or sets.
    An attribute that has not been set yet is [None], like [ip_array] and
    [control_array] after [__init__]. *)
Record Chipseq (A : Type) : Type := mkChipseq
  { ip : Signal A;
    control : Signal A;
    self_features : option (list Interval);
    browser_local_coverage_kwargs : option nat;
    ip_array : option (ndarray A);
    control_array : option (ndarray A);
    diffed_array : option (ndarray A) }.
Arguments mkChipseq {A} _ _ _ _ _ _ _.
Arguments ip {A} _.
Arguments control {A} _.
Arguments self_features {A} _.
Arguments browser_local_coverage_kwargs {A} _.
Arguments ip_array {A} _.
Arguments control_array {A} _.
Arguments diffed_array {A} _.

(** The state of a method call: the object and the dicts. *)
Record world (A : Type) : Type := mkWorld
  { self : Chipseq A;
    dicts : gmap nat (gmap string pyval) }.
Arguments mkWorld {A} _ _.
Arguments self {A} _.
Arguments dicts {A} _.

#[export] Instance world_store {A} : HasStore (world A) :=
  {| store_of := dicts;
     with_store := fun h w => mkWorld (self w) h |}.

Section WithArith.
Context {A : Type} `{Arith A}.

Definition update_self (f : Chipseq A -> Chipseq A) : M (world A) unit :=
  modify (fun w => mkWorld (f (self w)) (dicts w)).

Definition get_self : M (world A) (Chipseq A) :=
  fun w => (Ok (self w), w).

Definition set_features (fs : list Interval) (c : Chipseq A) : Chipseq A :=
  mkChipseq (ip c) (control c) (Some fs) (browser_local_coverage_kwargs c)
            (ip_array c) (control_array c) (diffed_array c).

Definition set_browser_local_coverage_kwargs (l : nat) (c : Chipseq A) : Chipseq A :=
  mkChipseq (ip c) (control c) (self_features c) (Some l)
            (ip_array c) (control_array c) (diffed_array c).

Definition set_ip_array (a : ndarray A) (c : Chipseq A) : Chipseq A :=
  mkChipseq (ip c) (control c) (self_features c) (browser_local_coverage_kwargs c)
            (Some a) (control_array c) (diffed_array c).

Definition set_control_array (a : ndarray A) (c : Chipseq A) : Chipseq A :=
  mkChipseq (ip c) (control c) (self_features c) (browser_local_coverage_kwargs c)
            (ip_array c) (Some a) (diffed_array c).

Definition set_diffed_array (a : ndarray A) (c : Chipseq A) : Chipseq A :=
  mkChipseq (ip c) (control c) (self_features c) (browser_local_coverage_kwargs c)
            (ip_array c) (control_array c) (Some a).

(** [metaseq.plotutils.nice_log], the default [func]; it lives outside
    this module. *)
Variable nice_log : ndarray A -> ndarray A.

(** The default value of [array_kwargs] is one dict object, made when the
    method is defined; the module never changes it, so it is empty. *)
Variable default_array_kwargs : nat.

(** [array_kwargs = None] stands for a call that leaves the argument out. *)
Definition diff_array (features : list Interval) (force : bool)
    (func : option (ndarray A -> ndarray A)) (array_kwargs : option nat)
  : M (world A) unit :=
  (let array_kwargs := default default_array_kwargs array_kwargs in
   update_self (set_features features) ;;;
   l <- copy array_kwargs ;;
   update_self (set_browser_local_coverage_kwargs l) ;;;
   pop l "processes" ;;;
   pop l "chunksize" ;;;
   me <- get_self ;;
   (if bool_decide (ip_array me = None) || force
    then kwargs <- read array_kwargs ;;
         a <- lift (array (ip me) features kwargs) ;;
         update_self (set_ip_array a) ;;;
         update_self (set_ip_array (div_scalar a (million_mapped_reads (ip me))))
    else ret tt) ;;;
   me <- get_self ;;
   (if bool_decide (control_array me = None) || force
    then kwargs <- read array_kwargs ;;
         a <- lift (array (control me) features kwargs) ;;
         update_self (set_control_array a) ;;;
         update_self (set_control_array
                        (div_scalar a (million_mapped_reads (control me))))
    else ret tt) ;;;
   let func := default nice_log func in
   me <- get_self ;;
   match ip_array me, control_array me with
   | Some ia, Some ca =>
       d <- lift (subtract ia ca) ;;
       update_self (set_diffed_array (func d))
   | _, _ => raise TypeError   (* None - array; both are set by now *)
   end)%py.

End WithArith.

End Diff.

(* ===================================================================== *)
(** ** add_strand                                                         *)
(* ===================================================================== *)

Module Strand.

Import Dispatch.

Definition inspect {B} (b : B) : {b' : B | b = b'} := exist _ b eq_refl.

(** [while len(fields) < 5: fields.append('.')] *)
Equations pad_fields (fields : list string) : list string
  by wf (5 - length fields)%nat lt :=
pad_fields fields with inspect (length fields <? 5)%nat := {
  | exist _ true Hlt => pad_fields (fields ++ ["."]);
  | exist _ false _ => fields }.
Next Obligation.
  apply Nat.ltb_lt in Hlt. rewrite length_app. simpl. lia.
Qed.

Section WithIntervals.

(** [f.fields] and [pybedtools.create_interval_from_list]. *)
Variable fields_of : Interval -> list string.
Variable create_interval_from_list : list string -> Interval.

(** The local function of [estimate_shift]; [f.fields[:]] is a copy, so
    [f] itself is left alone. *)
Definition add_strand (f : Interval) (strand : string) : Interval :=
  let fields := fields_of f in
  let fields := pad_fields fields in
  let fields := fields ++ [strand] in
  create_interval_from_list fields.

End WithIntervals.

End Strand.

(* ===================================================================== *)
(** ** Chipseq.plot: the strip line                                       *)
(* ===================================================================== *)

Module Plot.

Import Dispatch Diff.

(** What happens to the strip line in [Chipseq.plot]: the line that comes
    out decorated, or the exception that stops the method before. *)
Inductive outcome : Type :=
| Line (line : Artist)
| AttributeError (name : string)   (* an attribute that was never set *)
| Raised (e : exn).

Section WithArith.
Context {A : Type} `{Arith A}.

(** [a[row_order]]: the rows of [a] in the order given, each index read
    as [getitem] reads it. *)
Fixpoint take_rows (a : list (list A)) (row_order : list Z) : res (list (list A)) :=
  match row_order with
  | [] => Ok []
  | k :: rest =>
      res_bind (getitem a k) (fun row =>
      res_bind (take_rows a rest) (fun rows => Ok (row :: rows)))
  end.

(** The statements of [Chipseq.plot] that decide what [line.features] and
    [line.ind] are; the calls that draw are left out, they do not touch
    these values.  [row_order = None] stands for a call without it. *)
Definition strip_line (c : Chipseq A) (row_order : option (list Z)) : outcome :=
  match diffed_array c with
  | None => AttributeError "diffed_array"
  | Some d =>
      let nrows := nrows d in
      let row_order := default (arange 0 (Z.of_nat nrows)) row_order in
      (* matrix_ax.imshow(self.diffed_array[row_order], ...) *)
      match take_rows (rows d) row_order with
      | Raise e => Raised e
      | Ok _ =>
          match self_features c with
          | None => AttributeError "features"
          | Some fs => Line (mkArtist fs row_order)
          end
      end
  end.

End WithArith.

End Plot.

(* ===================================================================== *)
(** ** The script                                                         *)
(* ===================================================================== *)

Module Script.

(** [try: m except IndexError: h] *)
Definition except_IndexError {S B} (m h : M S B) : M S B :=
  fun s => match m s with
           | (Raise IndexError, s') => h s'
           | r => r
           end.

Definition choices : list string := ["xcorr"; "chipseq"].

Section Main.
Context {S : Type}.

(** [import sys] binds the module global. *)
Variable import_sys : S -> S.
(** [print 'Choices are: ', choices] *)
Variable print_choices : M S unit.
(** The bodies of the two examples, and [plt.show()]. *)
Variable xcorr_example : M S unit.
Variable chipseq_example : M S unit.
Variable show : M S unit.

(** The block under [if __name__ == "__main__"], run with [sys.argv]. *)
Definition main (argv : list string) : M S unit :=
  (modify import_sys ;;;
   examples <- except_IndexError
                 (lift (Ok (slice argv 1 (Z.of_nat (length argv)))))
                 (print_choices ;;; ret []) ;;
   for_ examples (fun ex =>
     if bool_decide (ex ∈ choices) then ret tt else raise ValueError) ;;;
   (if bool_decide ("xcorr" ∈ examples) then xcorr_example else ret tt) ;;;
   (if bool_decide ("chipseq" ∈ examples) then chipseq_example else ret tt) ;;;
   show)%py.

End Main.

End Script.

(* ===================================================================== *)
(** * Properties                                                          *)
(* ===================================================================== *)

(** ** The pick-event handler *)

Module DispatchFacts.

Import Dispatch.

(** Six features, named after their chromosome. *)
Definition gene (name : string) : Interval := mkInterval name 0 100 "+".

Definition six_genes : list Interval :=
  [gene "a"; gene "b"; gene "c"; gene "d"; gene "e"; gene "f"].

(** The strip line over [six_genes] in their own order. *)
Definition six_line : Artist := mkArtist six_genes [0; 1; 2; 3; 4; 5]%Z.

(** What one turn of the loop does for a resolved feature. *)
Definition turn (browser : bool) (f : Interval) : list action :=
  PrintFeature f :: (if browser then [MiniPlot f] else []).

(** The loop body of [callback], for a given value of [browser]. *)
Definition body (artist : Artist) (browser : bool) (i : Z) : M (list action) unit :=
  (feature <- lift (resolve artist i) ;;
   emit (PrintFeature feature) ;;;
   if browser then emit (MiniPlot feature) else ret tt)%py.

Lemma callback_unfold event tr :
  callback event tr =
  if (5 <? Z.of_nat (length (ev_ind event)))%Z
  then for_ (ev_ind event) (body (ev_artist event) false) (tr ++ [PrintNotice 5])
  else for_ (ev_ind event) (body (ev_artist event) true) tr.
Proof.
  unfold callback, bind, emit, modify, ret.
  destruct (5 <? Z.of_nat (length (ev_ind event)))%Z; reflexivity.
Qed.

Lemma body_ok artist browser i f tr :
  resolve artist i = Ok f ->
  body artist browser i tr = (Ok tt, tr ++ turn browser f).
Proof.
  intros Hr. unfold body, bind, lift, emit, modify, ret, turn. rewrite Hr.
  destruct browser; simpl; [rewrite <- app_assoc|]; reflexivity.
Qed.

Lemma body_raise artist browser i e tr :
  resolve artist i = Raise e ->
  body artist browser i tr = (Raise e, tr).
Proof.
  intros Hr. unfold body, bind, lift. rewrite Hr. reflexivity.
Qed.

(** When every index resolves, the loop takes one turn per index. *)
Lemma loop_ok artist browser picked : forall fs tr,
  resolve_all artist picked = Ok fs ->
  for_ picked (body artist browser) tr = (Ok tt, tr ++ flat_map (turn browser) fs).
Proof.
  induction picked as [|i picked IH]; intros fs tr Hall; simpl in Hall.
  - inversion Hall; subst. simpl. rewrite app_nil_r. reflexivity.
  - destruct (resolve artist i) as [f|e] eqn:Hr; simpl in Hall; [|discriminate].
    destruct (resolve_all artist picked) as [fs'|e] eqn:Hrest; simpl in Hall;
      [|discriminate].
    inversion Hall; subst. simpl. unfold bind at 1.
    rewrite (body_ok _ _ _ _ _ Hr), (IH fs' _ eq_refl).
    rewrite <- app_assoc. reflexivity.
Qed.


Lemma plot_calls_app tr1 tr2 :
  plot_calls (tr1 ++ tr2) = plot_calls tr1 ++ plot_calls tr2.
Proof. unfold plot_calls. apply omap_app. Qed.


Lemma plot_calls_turns_on fs : plot_calls (flat_map (turn true) fs) = fs.
Proof.
  induction fs as [|f fs IH]; simpl; auto.
  unfold plot_calls in *. simpl. rewrite IH. reflexivity.
Qed.

Lemma turns_off fs : flat_map (turn false) fs = map PrintFeature fs.
Proof. induction fs as [|f fs IH]; simpl; congruence. Qed.

Lemma resolve_all_length artist picked : forall fs,
  resolve_all artist picked = Ok fs -> length fs = length picked.
Proof.
  induction picked as [|i picked IH]; intros fs Hall; simpl in Hall.
  - inversion Hall. reflexivity.
  - destruct (resolve artist i); simpl in Hall; [|discriminate].
    destruct (resolve_all artist picked) eqn:Hrest; simpl in Hall; [|discriminate].
    inversion Hall; subst. simpl. f_equal. apply IH. reflexivity.
Qed.


Lemma getitem_nonneg {A} (l : list A) (k : Z) (a : A) :
  (0 <= k)%Z -> l !! Z.to_nat k = Some a -> getitem l k = Ok a.
Proof.
  intros Hk Hl. unfold getitem.
  apply lookup_lt_Some in Hl as Hlt.
  destruct (k <? 0)%Z eqn:Hneg; [apply Z.ltb_lt in Hneg; lia|].
  replace ((0 <=? k)%Z && (k <? Z.of_nat (length l))%Z) with true.
  - rewrite Hl. reflexivity.
  - symmetry. apply andb_true_iff. split; [apply Z.leb_le|apply Z.ltb_lt]; lia.
Qed.

(** Point [i] of the strip resolves to the row that the row order lists
    at position [n - 1 - i]. *)
Lemma resolve_in_range artist i :
  (0 <= i < Z.of_nat (length (ind artist)))%Z ->
  Forall (fun row => (0 <= row < Z.of_nat (length (features artist)))%Z) (ind artist) ->
  exists row f,
    ind artist !! (length (ind artist) - 1 - Z.to_nat i)%nat = Some row /\
    features artist !! Z.to_nat row = Some f /\
    resolve artist i = Ok f.
Proof.
  intros Hi Hrows.
  destruct (lookup_lt_is_Some_2 (ind artist) (length (ind artist) - 1 - Z.to_nat i)%nat)
    as [row Hrow]; [lia|].
  assert (Hin : (0 <= row < Z.of_nat (length (features artist)))%Z).
  { rewrite Forall_forall in Hrows. apply Hrows.
    apply list_elem_of_lookup. eauto. }
  destruct (lookup_lt_is_Some_2 (features artist) (Z.to_nat row)) as [f Hf]; [lia|].
  exists row, f. repeat split; auto.
  unfold resolve, reversed.
  rewrite (getitem_nonneg (reverse (ind artist)) i row); [|lia|].
  - simpl. apply getitem_nonneg; [lia|assumption].
  - rewrite reverse_lookup by lia.
    rewrite <- Hrow. f_equal. lia.
Qed.

Lemma resolve_all_in_range artist picked :
  Forall (fun i => (0 <= i < Z.of_nat (length (ind artist)))%Z) picked ->
  Forall (fun row => (0 <= row < Z.of_nat (length (features artist)))%Z) (ind artist) ->
  exists fs, resolve_all artist picked = Ok fs.
Proof.
  intros Hpicked Hrows. induction Hpicked as [|i picked Hi _ IH].
  - exists []. reflexivity.
  - destruct (resolve_in_range artist i Hi Hrows) as (row & f & _ & _ & Hr).
    destruct IH as [fs Hfs]. exists (f :: fs). simpl. rewrite Hr, Hfs. reflexivity.
Qed.






(** Three features under the row order [2, 0, 1]. *)
Definition three_line : Artist :=
  mkArtist [gene "a"; gene "b"; gene "c"] [2; 0; 1]%Z.



(** C3, as amended.  A selection of [k <= 5] points whose indices all
    resolve: [minibrowser.plot] is called [k] times, once for each resolved
    feature, one call after the other in the order of [event.ind], and the
    callback returns normally. *)
Theorem callback_plots_each_once (event : PickEvent) (tr : list action)
    (fs : list Interval) :
  (length (ev_ind event) <= 5)%nat ->
  resolve_all (ev_artist event) (ev_ind event) = Ok fs ->
  callback event tr = (Ok tt, tr ++ flat_map (turn true) fs) /\
  plot_calls (snd (callback event tr)) = plot_calls tr ++ fs /\
  length fs = length (ev_ind event).
Proof.
  intros Hlen Hall.
  assert (Hcb : callback event tr = (Ok tt, tr ++ flat_map (turn true) fs)).
  { rewrite callback_unfold.
    replace (5 <? Z.of_nat (length (ev_ind event)))%Z with false
      by (symmetry; apply Z.ltb_ge; lia).
    apply loop_ok, Hall. }
  split; [exact Hcb|]. split.
  - rewrite Hcb. simpl. rewrite plot_calls_app, plot_calls_turns_on. reflexivity.
  - eapply resolve_all_length, Hall.
Qed.

Lemma callback_plots_each_once_witness :
  callback (mkPickEvent six_line [0; 2; 4]%Z) [] =
    (Ok tt, [] ++ flat_map (turn true) [gene "f"; gene "d"; gene "b"]) /\
  plot_calls (snd (callback (mkPickEvent six_line [0; 2; 4]%Z) [])) =
    plot_calls [] ++ [gene "f"; gene "d"; gene "b"] /\
  length [gene "f"; gene "d"; gene "b"] = length [0; 2; 4]%Z.
Proof.
  apply (callback_plots_each_once (mkPickEvent six_line [0; 2; 4]%Z) []
           [gene "f"; gene "d"; gene "b"]).
  - simpl. lia.
  - reflexivity.
Defined.

(** Three features under a row order that lists two rows only: [plot]
    takes it, draws two rows of the matrix and all three strip points. *)
Definition short_line : Artist :=
  mkArtist [gene "a"; gene "b"; gene "c"] [2; 0]%Z.

(** C3 as stated fails: of three picked points, the second does not
    resolve under the short row order; [minibrowser.plot] has been called
    once, not three times, when the callback raises [IndexError]. *)
Lemma callback_plots_fewer_when_unresolved :
  (length (ev_ind (mkPickEvent short_line [0; 2; 1]%Z)) <= 5)%nat /\
  callback (mkPickEvent short_line [0; 2; 1]%Z) [] =
    (Raise IndexError, [PrintFeature (gene "a"); MiniPlot (gene "a")]) /\
  plot_calls (snd (callback (mkPickEvent short_line [0; 2; 1]%Z) [])) = [gene "a"] /\
  length (plot_calls (snd (callback (mkPickEvent short_line [0; 2; 1]%Z) [])))
    <> length (ev_ind (mkPickEvent short_line [0; 2; 1]%Z)).
Proof.
  split; [simpl; lia|]. split; [reflexivity|]. split; [reflexivity|].
  vm_compute. lia.
Qed.

End DispatchFacts.

(** ** Cross-correlation and the shift estimate *)

Module ShiftFacts.

Import Shift.

Lemma take_drop_map_seq {B} (g : nat -> B) (lo k n : nat) :
  (lo + k <= n)%nat ->
  take k (drop lo (map g (seq 0 n))) = map g (seq lo k).
Proof.
  intros Hle.
  replace n with (lo + (k + (n - lo - k)))%nat by lia.
  rewrite !seq_app, !map_app. simpl.
  rewrite drop_app_length'; [|rewrite length_map, length_seq; reflexivity].
  rewrite take_app_length'; [|rewrite length_map, length_seq; reflexivity].
  reflexivity.
Qed.

Lemma map_seq_offset {B} (g : nat -> B) (k : nat) : forall lo,
  map g (seq lo k) = map (fun i => g (lo + i)%nat) (seq 0 k).
Proof.
  induction k as [|k IH]; intros lo; simpl; [reflexivity|].
  rewrite Nat.add_0_r. f_equal.
  rewrite <- (seq_shift k 0), map_map, (IH (S lo)).
  apply map_ext. intros i. f_equal. lia.
Qed.

Lemma slice_nonneg {B} (l : list B) (a b : Z) :
  (0 <= a <= b)%Z -> (b <= Z.of_nat (length l))%Z ->
  slice l a b = take (Z.to_nat b - Z.to_nat a) (drop (Z.to_nat a) l).
Proof.
  intros Hab Hb. unfold slice, slice_bound.
  destruct (a <? 0)%Z eqn:Ha; [apply Z.ltb_lt in Ha; lia|].
  destruct (b <? 0)%Z eqn:Hb'; [apply Z.ltb_lt in Hb'; lia|].
  rewrite !Z.max_r, !Z.min_r by lia. reflexivity.
Qed.

Section Generic.
Context {A : Type} `{Arith A}.

Lemma correlate_full_lags (x y : list A) :
  x <> [] -> y <> [] ->
  correlate_full x y =
  Ok (map (fun j => correlate_at x y (Z.of_nat j - (Z.of_nat (length y) - 1)))
          (seq 0 (length x + length y - 1))).
Proof. destruct x, y; intros; try congruence; reflexivity. Qed.

(** The correlation at lag [k], divided by [sqrt(dot(x,x) * dot(y,y))]. *)
Definition normalized_at (x y : list A) (k : Z) : A :=
  div (correlate_at x y k) (sqrt (mul (inner x x) (inner y y))).

Lemma xcorr_lags (x y : list A) (maxlags : Z) :
  length x = length y ->
  (0 <= maxlags < Z.of_nat (length x))%Z ->
  xcorr x y maxlags =
  Ok (map (normalized_at x y) (arange (- maxlags) (maxlags + 1))).
Proof.
  intros Hlen Hm. unfold xcorr.
  replace (length x =? length y)%nat with true by (symmetry; apply Nat.eqb_eq, Hlen).
  simpl.
  rewrite correlate_full_lags; [|destruct x; simpl in *; [lia|congruence]
                                |destruct y; simpl in *; [lia|congruence]].
  unfold dot. rewrite !Nat.eqb_refl. simpl. f_equal.
  rewrite map_map.
  rewrite slice_nonneg; [| lia | rewrite length_map, length_seq; lia].
  rewrite take_drop_map_seq by lia.
  unfold arange.
  replace (Z.to_nat (maxlags + 1 - - maxlags)) with
    (Z.to_nat (Z.of_nat (length x) + maxlags) - Z.to_nat (Z.of_nat (length x) - 1 - maxlags))%nat by lia.
  rewrite map_map, map_seq_offset.
  apply map_ext_in. intros i Hi. apply in_seq in Hi.
  unfold normalized_at. do 2 f_equal. lia.
Qed.

Lemma lookup_map {B C} (f : B -> C) (l : list B) (i : nat) :
  map f l !! i = f <$> l !! i.
Proof. exact (list_lookup_fmap f l i). Qed.

Lemma lookup_arange (lo hi : Z) (i : nat) :
  (Z.of_nat i < hi - lo)%Z -> arange lo hi !! i = Some (lo + Z.of_nat i)%Z.
Proof.
  intros Hi. unfold arange. rewrite lookup_map, lookup_seq_lt by lia. reflexivity.
Qed.

Lemma length_arange (lo hi : Z) : length (arange lo hi) = Z.to_nat (hi - lo).
Proof. unfold arange. rewrite length_map, length_seq. reflexivity. Qed.



(** C7.  [xcorr] stops on its assertion exactly when the two vectors differ
    in length: it raises [AssertionError] then, and with vectors of equal
    length it never does. *)
Theorem xcorr_asserts_equal_length (x y : list A) (maxlags : Z) :
  xcorr x y maxlags = Raise AssertionError <-> length x <> length y.
Proof.
  unfold xcorr. destruct (length x =? length y)%nat eqn:Hlen; simpl.
  - apply Nat.eqb_eq in Hlen. split; [|tauto]. intros Hx. exfalso.
    unfold dot in Hx. rewrite !Nat.eqb_refl in Hx.
    destruct (correlate_full x y) as [c|e] eqn:Hc; simpl in Hx; [discriminate|].
    inversion Hx; subst. destruct x, y; discriminate Hc.
  - apply Nat.eqb_neq in Hlen. tauto.
Qed.

End Generic.

Lemma inner_fold_ge (x : list R) : forall a : R,
  (a <= fold_left (fun acc p => acc + fst p * snd p) (zip x x) a)%R.
Proof.
  induction x as [|v x IH]; intros a; simpl; [lra|].
  eapply Rle_trans; [|apply IH]. pose proof (Rle_0_sqr v) as Hv.
  unfold Rsqr in Hv. lra.
Qed.





(** ** Monad steps *)

Lemma bind_ok {S B C} (m : M S B) (k : B -> M S C) s a s' :
  m s = (Ok a, s') -> bind m k s = k a s'.
Proof. intros Hm. unfold bind. rewrite Hm. reflexivity. Qed.

Lemma bind_raise {S B C} (m : M S B) (k : B -> M S C) s e s' :
  m s = (Raise e, s') -> bind m k s = (Raise e, s').
Proof. intros Hm. unfold bind. rewrite Hm. reflexivity. Qed.

(** ** Masks *)

Lemma broadcast_len_same n : broadcast_len n n = Ok n.
Proof. unfold broadcast_len. rewrite Nat.eqb_refl. reflexivity. Qed.

Lemma stretch_same {B} (l : list B) : stretch (length l) l = l.
Proof. unfold stretch. rewrite Nat.eqb_refl. reflexivity. Qed.

Lemma logical_and_same_length (a b : list bool) :
  length a = length b -> logical_and a b = Ok (zip_with andb a b).
Proof.
  intros Hlen. unfold logical_and. rewrite <- Hlen, broadcast_len_same. simpl.
  rewrite stretch_same. rewrite Hlen at 1. rewrite stretch_same. reflexivity.
Qed.

Lemma select_both {B} (p : B -> bool) (P : list B) : forall Q,
  length P = length Q ->
  zip (select P (zip_with andb (map p P) (map p Q)))
      (select Q (zip_with andb (map p P) (map p Q)))
  = List.filter (fun pr => p (fst pr) && p (snd pr)) (zip P Q).
Proof.
  induction P as [|x P IH]; intros [|y Q] Hlen; simpl in *; try lia; auto.
  destruct (p x && p y); simpl; rewrite IH by lia; reflexivity.
Qed.

Lemma count_true_select {B} (l : list B) : forall mask,
  length l = length mask -> count_true mask = length (select l mask).
Proof.
  unfold count_true.
  induction l as [|x l IH]; intros [|b mask] Hlen; simpl in *; try lia; auto.
  destruct b; simpl; rewrite IH by lia; reflexivity.
Qed.

Lemma length_select_both {B} (p : B -> bool) (P Q : list B) :
  length P = length Q ->
  length (select P (zip_with andb (map p P) (map p Q)))
  = length (List.filter (fun pr => p (fst pr) && p (snd pr)) (zip P Q)).
Proof.
  revert Q. induction P as [|x P IH]; intros [|y Q] Hlen; simpl in *; try lia; auto.
  destruct (p x && p y); simpl; rewrite IH by lia; reflexivity.
Qed.

Section Fill.
Context {A : Type} `{Arith A}.

(** The correlation row of one window. *)
Definition window_row (maxlag : Z) (pr : list A * list A) : list A :=
  map (normalized_at (fst pr) (snd pr)) (arange (- maxlag) (maxlag + 1)).

Lemma length_window_row maxlag pr :
  length (window_row maxlag pr) = Z.to_nat (2 * maxlag + 1).
Proof. unfold window_row. rewrite length_map, length_arange. f_equal. lia. Qed.

Lemma xcorr_window_row (x y : list A) (maxlag : Z) :
  length x = length y ->
  (0 <= maxlag < Z.of_nat (length x))%Z ->
  xcorr x y maxlag = Ok (window_row maxlag (x, y)).
Proof. apply xcorr_lags. Qed.

Lemma set_row_full (a : ndarray A) (i : nat) (v : list A) :
  (i < nrows a)%nat -> length v = ncols a ->
  set_row a i v = Ok (mkArray (ncols a) (<[i := v]> (rows a))).
Proof.
  intros Hi Hv. unfold set_row.
  replace (i <? nrows a)%nat with true by (symmetry; apply Nat.ltb_lt, Hi).
  rewrite Hv, broadcast_len_same. simpl. rewrite Nat.eqb_refl.
  rewrite <- Hv, stretch_same. reflexivity.
Qed.

Lemma fill_results_rows (maxlag : Z) (b : nat) (pairs : list (list A * list A)) :
  Forall (fun pr => length (fst pr) = b /\ length (snd pr) = b) pairs ->
  (0 <= maxlag < Z.of_nat b)%Z ->
  forall (results : ndarray A) (i : nat),
    ncols results = Z.to_nat (2 * maxlag + 1) ->
    (i + length pairs <= nrows results)%nat ->
    fill_results results i pairs maxlag =
    Ok (mkArray (ncols results)
          (take i (rows results) ++ map (window_row maxlag) pairs
             ++ drop (i + length pairs) (rows results))).
Proof.
  intros Hpairs Hm. induction Hpairs as [|[x y] pairs [Hx Hy] _ IH];
    intros results i Hc Hi; simpl in *.
  - rewrite Nat.add_0_r, take_drop. destruct results; reflexivity.
  - rewrite xcorr_window_row by (simpl in *; lia). simpl.
    rewrite set_row_full; [|lia|rewrite length_window_row; auto]. simpl.
    rewrite IH; simpl; [| assumption | unfold nrows in *; simpl; rewrite length_insert; lia].
    clear IH. f_equal. f_equal.
    unfold nrows in Hi.
    assert (Hlt : (i < length (rows results))%nat).
    { eapply Nat.lt_le_trans; [|exact Hi]. apply Nat.lt_add_pos_r, Nat.lt_0_succ. }
    rewrite (take_S_r _ _ (window_row maxlag (x, y)))
      by (apply list_lookup_insert_eq, Hlt).
    rewrite take_insert_ge by apply Nat.le_refl.
    rewrite drop_insert_lt by apply Nat.lt_succ_r, Nat.le_add_r.
    rewrite <- app_assoc. simpl. rewrite Nat.add_succ_r. reflexivity.
Qed.

End Fill.


(** ** estimate_shift *)

(** The keyword arguments as [estimate_shift] leaves them: without
    ['read_strand'], and with ['bins'] set to the window size unless it was
    there. *)
Definition prepare (windowsize : Z) (d : gmap string pyval) : gmap string pyval :=
  let d' := delete "read_strand" d in
  if bool_decide (is_Some (d' !! "bins")) then d'
  else <["bins" := VInt windowsize]> d'.

(** The world after the keyword arguments behind [l] have been prepared. *)
Definition prepared (windowsize : Z) (l : nat) (w : world) : world :=
  mkWorld (<[l := prepare windowsize (deref w l)]> (dicts w)) (stderr w) (sys_bound w).

Lemma deref_prepared windowsize l w :
  deref (prepared windowsize l w) l = prepare windowsize (deref w l).
Proof. unfold deref, prepared. simpl. rewrite lookup_insert_eq. reflexivity. Qed.

Lemma insert_deref_id (w : world) (l : nat) (k : string) (v : pyval) :
  deref w l !! k = Some v -> <[l := deref w l]> (dicts w) = dicts w.
Proof.
  unfold deref. simpl. intros Hk. apply insert_id.
  destruct (dicts w !! l) as [d|]; [reflexivity|].
  simpl in Hk. rewrite lookup_empty in Hk. discriminate.
Qed.

Definition set_dict (l : nat) (d : gmap string pyval) (w : world) : world :=
  mkWorld (<[l := d]> (dicts w)) (stderr w) (sys_bound w).

Lemma deref_set_dict l d w : deref (set_dict l d w) l = d.
Proof. unfold deref, set_dict. simpl. rewrite lookup_insert_eq. reflexivity. Qed.

Lemma set_dict_twice l d d' w : set_dict l d' (set_dict l d w) = set_dict l d' w.
Proof. unfold set_dict. simpl. rewrite insert_insert_eq. reflexivity. Qed.

Lemma set_dict_same l w k v :
  deref w l !! k = Some v -> set_dict l (deref w l) w = w.
Proof.
  intros Hk. unfold set_dict. rewrite (insert_deref_id w l k v Hk).
  destruct w; reflexivity.
Qed.

Lemma pop_default_run (l : nat) (key : string) (w : world) :
  pop_default l key w =
  (Ok (deref w l !! key),
   match deref w l !! key with
   | Some _ => set_dict l (delete key (deref w l)) w
   | None => w
   end).
Proof.
  unfold pop_default, bind, read, write, ret.
  destruct (deref w l !! key); reflexivity.
Qed.

Lemma contains_run (l : nat) (key : string) (w : world) :
  contains l key w = (Ok (bool_decide (is_Some (deref w l !! key))), w).
Proof. reflexivity. Qed.

Lemma setitem_run (l : nat) (key : string) (v : pyval) (w : world) :
  setitem l key v w = (Ok tt, set_dict l (<[key := v]> (deref w l)) w).
Proof. reflexivity. Qed.

Lemma prepare_run {B} (windowsize : Z) (l : nat) (k : M world B) (w : world) :
  bind (pop_default l "read_strand") (fun _ =>
  bind (contains l "bins") (fun has_bins =>
  bind (if has_bins then ret tt else setitem l "bins" (VInt windowsize)) (fun _ => k))) w
  = k (prepared windowsize l w).
Proof.
  rewrite (bind_ok _ _ _ _ _ (pop_default_run l "read_strand" w)).
  change (prepared windowsize l w) with (set_dict l (prepare windowsize (deref w l)) w).
  unfold prepare.
  destruct (deref w l !! "read_strand") as [v|] eqn:Hrs.
  - rewrite (bind_ok _ _ _ _ _ (contains_run l "bins" _)), deref_set_dict.
    destruct (bool_decide (is_Some (delete "read_strand" (deref w l) !! "bins"))).
    + reflexivity.
    + rewrite (bind_ok _ _ _ _ _ (setitem_run l "bins" _ _)).
      rewrite deref_set_dict, set_dict_twice. reflexivity.
  - rewrite (bind_ok _ _ _ _ _ (contains_run l "bins" _)).
    rewrite (delete_id (deref w l)) by assumption.
    destruct (bool_decide (is_Some (deref w l !! "bins"))) eqn:Hb.
    + apply bool_decide_eq_true in Hb. destruct Hb as [v Hv].
      rewrite (set_dict_same l w _ _ Hv). reflexivity.
    + rewrite (bind_ok _ _ _ _ _ (setitem_run l "bins" _ _)). reflexivity.
Qed.

Section Run.
Context {A : Type} `{Arith A}.
Variable window_maker : string -> Z -> list Dispatch.Interval.
Variable shuffle : string -> list Dispatch.Interval -> list Dispatch.Interval.

(** A window passes when its coverage, summed and divided by the window
    size, exceeds the threshold. *)
Definition passes (windowsize : Z) (thresh : option A) (x : list A) : bool :=
  gtb (div (array_sum x) (of_int windowsize)) (default (of_int 0) thresh).

(** The windows that [estimate_shift] keeps: the pairs of a plus-strand row
    and a minus-strand row that both pass. *)
Definition kept (windowsize : Z) (thresh : option A) (plus minus : ndarray A)
  : list (list A * list A) :=
  List.filter (fun pr => passes windowsize thresh (fst pr)
                         && passes windowsize thresh (snd pr))
              (zip (rows plus) (rows minus)).

(** The windows handed to the signal source. *)
Definition random_subset (signal : Signal A) (genome : option string)
    (windowsize nwindows : Z) : list Dispatch.Interval :=
  let g := default (Source.genome signal) genome in
  shuffle g (slice (window_maker g windowsize) 0 nwindows).

(** What a verbose call writes. *)
Definition chatter (verbose : bool) (nwindows : Z) (passed : nat) : list message :=
  if verbose then [GettingPlus nwindows; GettingMinus nwindows; Running passed]
  else [].

Lemma enough_mask (windowsize : Z) (thresh : option A) (plus minus : ndarray A) :
  nrows plus = nrows minus ->
  logical_and
    (map (fun s => gtb (div s (of_int windowsize)) (default (of_int 0) thresh))
         (sum_axis1 plus))
    (map (fun s => gtb (div s (of_int windowsize)) (default (of_int 0) thresh))
         (sum_axis1 minus))
  = Ok (zip_with andb (map (passes windowsize thresh) (rows plus))
                      (map (passes windowsize thresh) (rows minus))).
Proof.
  intros Hn. unfold sum_axis1. rewrite !map_map.
  apply logical_and_same_length. rewrite !length_map. exact Hn.
Qed.

Lemma well_shaped_kept (windowsize : Z) (thresh : option A) (plus minus : ndarray A) :
  well_shaped plus -> well_shaped minus -> ncols plus = ncols minus ->
  Forall (fun pr => length (fst pr) = ncols plus /\ length (snd pr) = ncols plus)
         (kept windowsize thresh plus minus).
Proof.
  unfold well_shaped, kept. intros Hp Hm Hc. rewrite <- Hc in Hm.
  apply Forall_forall. intros [x y] Hin.
  apply list_elem_of_In, filter_In in Hin. destruct Hin as [Hin _].
  apply list_elem_of_In, elem_of_zip_with in Hin.
  destruct Hin as (x' & y' & Heq & Hx & Hy). inversion Heq; subst.
  rewrite Forall_forall in Hp, Hm. simpl. auto.
Qed.

(** The numerical part of [estimate_shift], from the two arrays to the
    matrix of correlations. *)
Lemma correlate_windows (windowsize : Z) (thresh : option A) (maxlag : Z)
    (plus minus : ndarray A) (mask : list bool) :
  nrows plus = nrows minus ->
  well_shaped plus -> well_shaped minus -> ncols plus = ncols minus ->
  (0 <= maxlag)%Z ->
  ((maxlag < Z.of_nat (ncols plus))%Z \/ kept windowsize thresh plus minus = []) ->
  mask = zip_with andb (map (passes windowsize thresh) (rows plus))
                       (map (passes windowsize thresh) (rows minus)) ->
  count_true mask = length (kept windowsize thresh plus minus) /\
  exists results,
    zeros (count_true mask) (2 * maxlag + 1) = Ok results /\
    mask_rows plus mask = Ok (mkArray (ncols plus) (select (rows plus) mask)) /\
    mask_rows minus mask = Ok (mkArray (ncols minus) (select (rows minus) mask)) /\
    fill_results results 0
      (zip (select (rows plus) mask) (select (rows minus) mask)) maxlag
    = Ok (mkArray (Z.to_nat (2 * maxlag + 1))
                  (map (window_row maxlag) (kept windowsize thresh plus minus))).
Proof.
  intros Hn Hwp Hwm Hc Hm Hfit ->. unfold nrows in Hn.
  set (p := passes windowsize thresh).
  set (mask := zip_with andb (map p (rows plus)) (map p (rows minus))).
  assert (Hmask : length mask = length (rows plus)).
  { unfold mask. rewrite length_zip_with, !length_map. clear - Hn. lia. }
  assert (Hcount : count_true mask = length (kept windowsize thresh plus minus)).
  { rewrite (count_true_select (rows plus)) by (symmetry; exact Hmask).
    apply length_select_both, Hn. }
  split; [exact Hcount|].
  unfold zeros. replace (2 * maxlag + 1 <? 0)%Z with false
    by (symmetry; apply Z.ltb_ge; clear - Hm; lia).
  eexists. split; [reflexivity|].
  unfold mask_rows, nrows. rewrite <- Hn, Hmask, Nat.eqb_refl.
  split; [reflexivity|]. split; [reflexivity|].
  unfold mask at 2 3. rewrite select_both by exact Hn.
  change (List.filter (fun pr => p (fst pr) && p (snd pr)) (zip (rows plus) (rows minus)))
    with (kept windowsize thresh plus minus).
  rewrite Hcount.
  destruct Hfit as [Hfit|Hnone].
  - rewrite (fill_results_rows maxlag (ncols plus)); simpl.
    + rewrite drop_ge by (rewrite repeat_length; apply Nat.le_refl).
      rewrite app_nil_r. reflexivity.
    + apply well_shaped_kept; assumption.
    + split; assumption.
    + reflexivity.
    + unfold nrows. simpl. rewrite repeat_length. apply Nat.le_refl.
  - rewrite Hnone. reflexivity.
Qed.

(** ** Steps of [estimate_shift] *)

Definition say (msgs : list message) (w : world) : world :=
  mkWorld (dicts w) (stderr w ++ msgs) (sys_bound w).

Lemma note_run (verbose : bool) (msg : message) (w : world) :
  (verbose = false \/ sys_bound w = true) ->
  (if verbose then stderr_write msg else ret tt) w
  = (Ok tt, say (if verbose then [msg] else []) w).
Proof.
  intros Hv. destruct verbose.
  - destruct Hv as [Hv|Hv]; [discriminate|].
    unfold stderr_write, say. rewrite Hv. reflexivity.
  - unfold ret, say. rewrite app_nil_r. destruct w; reflexivity.
Qed.

Lemma read_run (l : nat) (w : world) : read l w = (Ok (deref w l), w).
Proof. reflexivity. Qed.

Lemma lift_run {B} (r : res B) (w : world) : lift r w = (r, w).
Proof. reflexivity. Qed.

Lemma deref_say msgs w l : deref (say msgs w) l = deref w l.
Proof. reflexivity. Qed.

Ltac step_note Hv :=
  match goal with
  | |- context [bind (if ?v then stderr_write ?m else ret tt) ?k ?s] =>
      rewrite (bind_ok _ k s tt _ (note_run v m s Hv))
  end.

Ltac step_read :=
  match goal with
  | |- context [bind (read ?l) ?k ?s] =>
      rewrite (bind_ok _ k s _ _ (read_run l s))
  end.

Ltac step_lift Heq :=
  match goal with
  | |- context [bind (lift ?r) ?k ?s] =>
      rewrite (bind_ok (lift r) k s _ s (eq_trans (lift_run r s) (f_equal (fun x => (x, s)) Heq)))
  end.


Lemma estimate_shift_run (signal : Signal A) (genome : option string)
    (windowsize : Z) (thresh : option A) (nwindows maxlag : Z) (l : nat)
    (verbose : bool) (w : world) (plus minus : ndarray A) :
  (verbose = false \/ sys_bound w = true) ->
  array signal (random_subset signal genome windowsize nwindows)
    (<["read_strand" := VStr "+"]> (prepare windowsize (deref w l))) = Ok plus ->
  array signal (random_subset signal genome windowsize nwindows)
    (<["read_strand" := VStr "-"]> (prepare windowsize (deref w l))) = Ok minus ->
  nrows plus = nrows minus ->
  well_shaped plus -> well_shaped minus -> ncols plus = ncols minus ->
  (0 <= maxlag)%Z ->
  ((maxlag < Z.of_nat (ncols plus))%Z \/ kept windowsize thresh plus minus = []) ->
  estimate_shift window_maker shuffle signal genome windowsize thresh nwindows
    maxlag (Some l) verbose w
  = (Ok (arange (- maxlag) (maxlag + 1),
         mkArray (Z.to_nat (2 * maxlag + 1))
                 (map (window_row maxlag) (kept windowsize thresh plus minus))),
     mkWorld (<[l := prepare windowsize (deref w l)]> (dicts w))
             (stderr w ++ chatter verbose nwindows
                            (length (kept windowsize thresh plus minus)))
             (sys_bound w)).
Proof.
  intros Hv Hplus Hminus Hn Hwp Hwm Hc Hm Hfit.
  unfold estimate_shift. rewrite (bind_ok _ _ w l w) by reflexivity.
  rewrite prepare_run.
  destruct (correlate_windows windowsize thresh maxlag plus minus _
              Hn Hwp Hwm Hc Hm Hfit eq_refl)
    as (Hcount & results & Hzeros & Hmp & Hmm & Hfill).
  step_note Hv. step_read. rewrite deref_say, deref_prepared.
  fold (random_subset signal genome windowsize nwindows).
  step_lift Hplus.
  step_note Hv. step_read. rewrite !deref_say, deref_prepared.
  step_lift Hminus.
  unfold astype_float.
  step_lift (enough_mask windowsize thresh plus minus Hn).
  rewrite Hcount in Hzeros. rewrite Hcount.
  step_note Hv.
  step_lift Hzeros. step_lift Hmp. step_lift Hmm. simpl rows.
  step_lift Hfill.
  unfold ret, say, prepared, chatter. simpl.
  destruct verbose; simpl; rewrite <- ?app_assoc, ?app_nil_r; reflexivity.
Qed.


(** A call without [array_kwargs] makes an empty dict and goes on as if it
    had been handed that one. *)
Lemma estimate_shift_fresh_kwargs (signal : Signal A) (genome : option string)
    (windowsize : Z) (thresh : option A) (nwindows maxlag : Z)
    (verbose : bool) (w : world) :
  estimate_shift window_maker shuffle signal genome windowsize thresh nwindows
    maxlag None verbose w
  = estimate_shift window_maker shuffle signal genome windowsize thresh nwindows
      maxlag (Some (fresh (dom (dicts w)))) verbose
      (set_dict (fresh (dom (dicts w))) ∅ w).
Proof. reflexivity. Qed.

(** The dict that [estimate_shift] works on, as the call finds it. *)
Definition kwargs_in (w : world) (array_kwargs : option nat) : gmap string pyval :=
  match array_kwargs with
  | Some l => deref w l
  | None => ∅
  end.

Lemma estimate_shift_returns (signal : Signal A) (genome : option string)
    (windowsize : Z) (thresh : option A) (nwindows maxlag : Z)
    (array_kwargs : option nat) (verbose : bool) (w : world)
    (plus minus : ndarray A) :
  (verbose = false \/ sys_bound w = true) ->
  array signal (random_subset signal genome windowsize nwindows)
    (<["read_strand" := VStr "+"]> (prepare windowsize (kwargs_in w array_kwargs)))
    = Ok plus ->
  array signal (random_subset signal genome windowsize nwindows)
    (<["read_strand" := VStr "-"]> (prepare windowsize (kwargs_in w array_kwargs)))
    = Ok minus ->
  nrows plus = nrows minus ->
  well_shaped plus -> well_shaped minus -> ncols plus = ncols minus ->
  (0 <= maxlag)%Z ->
  ((maxlag < Z.of_nat (ncols plus))%Z \/ kept windowsize thresh plus minus = []) ->
  exists w',
    estimate_shift window_maker shuffle signal genome windowsize thresh nwindows
      maxlag array_kwargs verbose w
    = (Ok (arange (- maxlag) (maxlag + 1),
           mkArray (Z.to_nat (2 * maxlag + 1))
                   (map (window_row maxlag) (kept windowsize thresh plus minus))),
       w').
Proof.
  intros Hv Hplus Hminus Hn Hwp Hwm Hc Hm Hfit.
  destruct array_kwargs as [l|]; simpl in Hplus, Hminus.
  - eexists. apply estimate_shift_run; eassumption.
  - rewrite estimate_shift_fresh_kwargs. eexists.
    apply estimate_shift_run; try eassumption; rewrite ?deref_set_dict; assumption.
Qed.

Lemma kept_rows_correlate (windowsize : Z) (thresh : option A) (maxlag : Z)
    (plus minus : ndarray A) :
  well_shaped plus -> well_shaped minus -> ncols plus = ncols minus ->
  (0 <= maxlag < Z.of_nat (ncols plus))%Z ->
  Forall2 (fun pr row => xcorr (fst pr) (snd pr) maxlag = Ok row)
          (kept windowsize thresh plus minus)
          (map (window_row maxlag) (kept windowsize thresh plus minus)).
Proof.
  intros Hwp Hwm Hc Hm.
  pose proof (well_shaped_kept windowsize thresh plus minus Hwp Hwm Hc) as Hk.
  induction Hk as [|[x y] ps [Hx Hy] _ IH]; simpl; constructor; auto.
  simpl in *. apply (xcorr_window_row x y maxlag); [congruence|].
  rewrite Hx. exact Hm.
Qed.

(** C4.  Given the two strand arrays that the signal source returns (same
    shape, one row per sampled window) and [maxlag] below the number of
    bins, [estimate_shift] returns, and the rows of its matrix are the
    correlations of exactly the windows whose plus-strand coverage and
    minus-strand coverage both exceed the threshold, in window order: a
    window is kept if and only if both tests hold, and a window that fails
    one of them leaves no row. *)
Theorem estimate_shift_keeps_windows_passing_both
    (signal : Signal A) (genome : option string)
    (windowsize : Z) (thresh : option A) (nwindows maxlag : Z)
    (array_kwargs : option nat) (verbose : bool) (w : world)
    (plus minus : ndarray A) :
  (verbose = false \/ sys_bound w = true) ->
  array signal (random_subset signal genome windowsize nwindows)
    (<["read_strand" := VStr "+"]> (prepare windowsize (kwargs_in w array_kwargs)))
    = Ok plus ->
  array signal (random_subset signal genome windowsize nwindows)
    (<["read_strand" := VStr "-"]> (prepare windowsize (kwargs_in w array_kwargs)))
    = Ok minus ->
  nrows plus = nrows minus ->
  well_shaped plus -> well_shaped minus -> ncols plus = ncols minus ->
  (0 <= maxlag < Z.of_nat (ncols plus))%Z ->
  exists lags results w',
    estimate_shift window_maker shuffle signal genome windowsize thresh nwindows
      maxlag array_kwargs verbose w = (Ok (lags, results), w') /\
    Forall2 (fun pr row => xcorr (fst pr) (snd pr) maxlag = Ok row)
            (kept windowsize thresh plus minus) (rows results) /\
    nrows results = length (kept windowsize thresh plus minus) /\
    forall x y,
      In (x, y) (kept windowsize thresh plus minus) <->
      In (x, y) (zip (rows plus) (rows minus)) /\
      passes windowsize thresh x = true /\ passes windowsize thresh y = true.
Proof.
  intros Hv Hplus Hminus Hn Hwp Hwm Hc Hm.
  destruct (estimate_shift_returns signal genome windowsize thresh nwindows maxlag
              array_kwargs verbose w plus minus Hv Hplus Hminus Hn Hwp Hwm Hc)
    as [w' Hrun]; [apply Hm | left; apply Hm |].
  eexists _, _, w'. split; [exact Hrun|]. simpl. split; [|split].
  - apply kept_rows_correlate; assumption.
  - unfold nrows. simpl. apply length_map.
  - intros x y. unfold kept. rewrite filter_In. simpl.
    rewrite andb_true_iff. reflexivity.
Qed.

(** C5.  Under the same conditions on the inputs, and also when [maxlag]
    is not below the number of bins but no window passes, [estimate_shift]
    returns the lags [-maxlag .. maxlag] and a matrix with [2*maxlag+1]
    columns and one row per window that passed; with no such window the
    matrix has no rows. *)
Theorem estimate_shift_shape
    (signal : Signal A) (genome : option string)
    (windowsize : Z) (thresh : option A) (nwindows maxlag : Z)
    (array_kwargs : option nat) (verbose : bool) (w : world)
    (plus minus : ndarray A) :
  (verbose = false \/ sys_bound w = true) ->
  array signal (random_subset signal genome windowsize nwindows)
    (<["read_strand" := VStr "+"]> (prepare windowsize (kwargs_in w array_kwargs)))
    = Ok plus ->
  array signal (random_subset signal genome windowsize nwindows)
    (<["read_strand" := VStr "-"]> (prepare windowsize (kwargs_in w array_kwargs)))
    = Ok minus ->
  nrows plus = nrows minus ->
  well_shaped plus -> well_shaped minus -> ncols plus = ncols minus ->
  (0 <= maxlag)%Z ->
  ((maxlag < Z.of_nat (ncols plus))%Z \/ kept windowsize thresh plus minus = []) ->
  exists lags results w',
    estimate_shift window_maker shuffle signal genome windowsize thresh nwindows
      maxlag array_kwargs verbose w = (Ok (lags, results), w') /\
    length lags = Z.to_nat (2 * maxlag + 1) /\
    (forall i, (0 <= i <= 2 * maxlag)%Z ->
       lags !! Z.to_nat i = Some (- maxlag + i)%Z) /\
    shape results =
      (length (kept windowsize thresh plus minus), Z.to_nat (2 * maxlag + 1)) /\
    well_shaped results /\
    (kept windowsize thresh plus minus = [] -> rows results = []).
Proof.
  intros Hv Hplus Hminus Hn Hwp Hwm Hc Hm Hfit.
  destruct (estimate_shift_returns signal genome windowsize thresh nwindows maxlag
              array_kwargs verbose w plus minus Hv Hplus Hminus Hn Hwp Hwm Hc Hm Hfit)
    as [w' Hrun].
  eexists _, _, w'. split; [exact Hrun|].
  split; [rewrite length_arange; f_equal; clear; lia|].
  split; [|split; [|split]].
  - intros i Hi. rewrite lookup_arange by (clear - Hi; lia).
    f_equal. f_equal. clear - Hi. lia.
  - unfold shape, nrows. simpl. rewrite length_map. reflexivity.
  - unfold well_shaped. simpl. apply Forall_forall. intros row Hrow.
    apply list_elem_of_In, in_map_iff in Hrow. destruct Hrow as (pr & <- & _).
    apply length_window_row.
  - simpl. intros ->. reflexivity.
Qed.


End Run.

(** ** Sample runs *)


(** Three windows of three bins.  The first is covered on both strands; the
    second on the minus strand only; the third on the plus strand only. *)
Definition plus_rows : ndarray float :=
  mkArray 3 [[1; 2; 3]; [0; 0; 0]; [4; 4; 4]]%float.
Definition minus_rows : ndarray float :=
  mkArray 3 [[3; 2; 1]; [5; 5; 5]; [0; 0; 0]]%float.

(** A signal source that answers with these arrays. *)
Definition two_strands : Signal float :=
  mkSignal float "dm3"
    (fun _ kwargs =>
       match kwargs !! "read_strand" with
       | Some (VStr "+") => Ok plus_rows
       | Some (VStr "-") => Ok minus_rows
       | _ => Raise ValueError
       end)
    1000000.

Definition no_windows : string -> Z -> list Dispatch.Interval := fun _ _ => [].
Definition no_shuffle : string -> list Dispatch.Interval -> list Dispatch.Interval :=
  fun _ ws => ws.

(** A world with no dict yet, in which the module was imported (so [sys]
    is not bound). *)
Definition imported : world := mkWorld ∅ [] false.

Example kept_two_strands :
  kept 3 (Some 0.5%float) plus_rows minus_rows = [([1; 2; 3], [3; 2; 1])%float].
Proof. reflexivity. Qed.

(** [xcorr] on binary64. *)
Example xcorr_two_ones :
  xcorr [1; 1]%float [1; 1]%float 1 = Ok [0.5; 1; 0.5]%float.
Proof. vm_compute. reflexivity. Qed.

Example xcorr_lengths_differ :
  xcorr [1; 2]%float [1]%float 0 = Raise AssertionError.
Proof. reflexivity. Qed.



Lemma estimate_shift_keeps_windows_passing_both_witness :
  exists lags results w',
    estimate_shift no_windows no_shuffle two_strands None 3 (Some 0.5%float)
      1000 1 None false imported = (Ok (lags, results), w') /\
    Forall2 (fun pr row => xcorr (fst pr) (snd pr) 1 = Ok row)
            (kept 3 (Some 0.5%float) plus_rows minus_rows) (rows results) /\
    nrows results = length (kept 3 (Some 0.5%float) plus_rows minus_rows) /\
    forall x y,
      In (x, y) (kept 3 (Some 0.5%float) plus_rows minus_rows) <->
      In (x, y) (zip (rows plus_rows) (rows minus_rows)) /\
      passes 3 (Some 0.5%float) x = true /\ passes 3 (Some 0.5%float) y = true.
Proof.
  apply (estimate_shift_keeps_windows_passing_both no_windows no_shuffle
           two_strands None 3 (Some 0.5%float) 1000 1 None false imported
           plus_rows minus_rows).
  - left. reflexivity.
  - reflexivity.
  - reflexivity.
  - reflexivity.
  - repeat constructor.
  - repeat constructor.
  - reflexivity.
  - simpl. lia.
Defined.

Lemma estimate_shift_shape_witness :
  exists lags results w',
    Shift.estimate_shift no_windows no_shuffle two_strands None 3 (Some 9%float)
      1000 7 None false imported = (Ok (lags, results), w') /\
    length lags = Z.to_nat (2 * 7 + 1) /\
    (forall i, (0 <= i <= 2 * 7)%Z -> lags !! Z.to_nat i = Some (- 7 + i)%Z) /\
    shape results =
      (length (kept 3 (Some 9%float) plus_rows minus_rows), Z.to_nat (2 * 7 + 1)) /\
    well_shaped results /\
    (kept 3 (Some 9%float) plus_rows minus_rows = [] -> rows results = []).
Proof.
  apply (estimate_shift_shape no_windows no_shuffle two_strands None 3
           (Some 9%float) 1000 7 None false imported plus_rows minus_rows).
  - left. reflexivity.
  - reflexivity.
  - reflexivity.
  - reflexivity.
  - repeat constructor.
  - repeat constructor.
  - reflexivity.
  - lia.
  - right. reflexivity.
Defined.

End ShiftFacts.

(** ** The differential array *)

Module DiffFacts.

Import Shift ShiftFacts Dispatch Diff.

(** Computations that leave every dict as it is. *)
Definition keeps {S B} `{HasStore S} (m : M S B) : Prop :=
  forall s, store_of (snd (m s)) = store_of s.

Lemma keeps_bind {S B C} `{HasStore S} (m : M S B) (k : B -> M S C) :
  keeps m -> (forall a, keeps (k a)) -> keeps (bind m k).
Proof.
  intros Hm Hk s. unfold bind. specialize (Hm s).
  destruct (m s) as [[a|e] s']; simpl in *.
  - rewrite Hk. exact Hm.
  - exact Hm.
Qed.

Lemma keeps_ret {S B} `{HasStore S} (a : B) : keeps (ret (S := S) a).
Proof. intros s. reflexivity. Qed.

Lemma keeps_raise {S B} `{HasStore S} (e : exn) : keeps (raise (S := S) (A := B) e).
Proof. intros s. reflexivity. Qed.

Lemma keeps_lift {S B} `{HasStore S} (r : res B) : keeps (lift (S := S) r).
Proof. intros s. reflexivity. Qed.

Lemma keeps_read {S} `{HasStore S} (l : nat) : keeps (read (S := S) l).
Proof. intros s. reflexivity. Qed.

Lemma keeps_stderr_write (msg : Shift.message) : keeps (Shift.stderr_write msg).
Proof. intros s. unfold Shift.stderr_write. destruct (Shift.sys_bound s); reflexivity. Qed.

Ltac keeps_steps :=
  repeat first
    [ apply keeps_ret | apply keeps_raise | apply keeps_lift | apply keeps_read
    | apply keeps_stderr_write
    | apply keeps_bind; [|intros ?]
    | match goal with |- keeps (if ?b then _ else _) => destruct b end
    | match goal with |- keeps (match ?x with _ => _ end) => destruct x end ].

Section WithArith.
Context {A : Type} `{Arith A}.

(** Whatever [estimate_shift] returns or raises, it has by then rewritten
    the dict it was handed. *)
Lemma estimate_shift_store window_maker shuffle (signal : Signal A)
    (genome : option string) (windowsize : Z) (thresh : option A)
    (nwindows maxlag : Z) (l : nat) (verbose : bool) (w : Shift.world) :
  Shift.dicts (snd (Shift.estimate_shift window_maker shuffle signal genome
                      windowsize thresh nwindows maxlag (Some l) verbose w))
  = <[l := prepare windowsize (deref w l)]> (Shift.dicts w).
Proof.
  unfold Shift.estimate_shift. rewrite (bind_ok _ _ w l w) by reflexivity.
  rewrite prepare_run.
  match goal with
  | |- Shift.dicts (snd (?k ?s)) = _ =>
      change (store_of (snd (k s)) = store_of s);
      generalize s; change (keeps k)
  end.
  keeps_steps.
Qed.

Lemma keeps_update_self (f : Chipseq A -> Chipseq A) : keeps (update_self f).
Proof. intros s. reflexivity. Qed.

Lemma keeps_get_self : keeps (get_self (A := A)).
Proof. intros s. reflexivity. Qed.

Lemma update_self_run (f : Chipseq A -> Chipseq A) (w : world A) :
  update_self f w = (Ok tt, mkWorld (f (self w)) (dicts w)).
Proof. reflexivity. Qed.

Lemma get_self_run (w : world A) : get_self w = (Ok (self w), w).
Proof. reflexivity. Qed.

Lemma copy_run (l : nat) (w : world A) :
  copy l w = (Ok (fresh (dom (dicts w))),
              mkWorld (self w) (<[fresh (dom (dicts w)) := deref w l]> (dicts w))).
Proof. reflexivity. Qed.

Lemma pop_found (l : nat) (key : string) (v : pyval) (w : world A) :
  deref w l !! key = Some v ->
  pop l key w = (Ok v, mkWorld (self w) (<[l := delete key (deref w l)]> (dicts w))).
Proof. intros Hk. unfold pop, bind, read. rewrite Hk. reflexivity. Qed.

Lemma pop_missing (l : nat) (key : string) (w : world A) :
  deref w l !! key = None -> pop l key w = (Raise (KeyError key), w).
Proof. intros Hk. unfold pop, bind, read. rewrite Hk. reflexivity. Qed.

Lemma lift_ok {B} (r : res B) (a : B) (w : world A) :
  r = Ok a -> lift r w = (Ok a, w).
Proof. intros ->. reflexivity. Qed.

Lemma lift_raise {B} (r : res B) (e : exn) (w : world A) :
  r = Raise e -> lift r w = (Raise e, w).
Proof. intros ->. reflexivity. Qed.

Lemma deref_insert_eq (c : Chipseq A) (h : gmap nat (gmap string pyval)) l d :
  deref (mkWorld c (<[l := d]> h)) l = d.
Proof. unfold deref. simpl. rewrite lookup_insert_eq. reflexivity. Qed.

Lemma fresh_ne (h : gmap nat (gmap string pyval)) (l : nat) d :
  h !! l = Some d -> fresh (dom h) <> l.
Proof.
  intros Hl Heq. apply (is_fresh (dom h)). rewrite Heq.
  apply elem_of_dom. eauto.
Qed.

Variable nice_log : ndarray A -> ndarray A.
Variable default_array_kwargs : nat.

(** The world once [diff_array] has recorded the features and copied the
    keyword arguments behind [l]. *)
Definition copied (features : list Interval) (l : nat) (w : world A) : world A :=
  mkWorld (set_browser_local_coverage_kwargs (fresh (dom (dicts w)))
             (set_features features (self w)))
          (<[fresh (dom (dicts w)) := deref w l]> (dicts w)).

(** ... and once both pops have gone through. *)
Definition popped (features : list Interval) (l : nat) (w : world A) : world A :=
  mkWorld (set_browser_local_coverage_kwargs (fresh (dom (dicts w)))
             (set_features features (self w)))
          (<[fresh (dom (dicts w)) :=
               delete "chunksize" (delete "processes" (deref w l))]> (dicts w)).

Ltac diff_start features l w :=
  rewrite (bind_ok _ _ _ _ _ (update_self_run _ _));
  rewrite (bind_ok _ _ _ _ _ (copy_run _ _));
  rewrite (bind_ok _ _ _ _ _ (update_self_run _ _));
  match goal with
  | |- context [bind _ _ ?s] => change s with (copied features l w)
  end;
  match goal with
  | |- context [pop ?l0 "processes"] => change l0 with (fresh (dom (dicts w)))
  end.

(** C9.  [diff_array] pops ['processes'] and then ['chunksize'] from its
    copy of [array_kwargs] before anything else: if the first is missing it
    raises [KeyError('processes')], if only the second is missing it raises
    [KeyError('chunksize')]; a call that leaves [array_kwargs] out uses the
    empty default and raises [KeyError('processes')]. *)
Theorem diff_array_pops_both_keys (features : list Interval) (force : bool)
    (func : option (ndarray A -> ndarray A)) (array_kwargs : option nat)
    (w : world A) :
  (deref w (default default_array_kwargs array_kwargs) !! "processes" = None ->
   diff_array nice_log default_array_kwargs features force func array_kwargs w
   = (Raise (KeyError "processes"),
      copied features (default default_array_kwargs array_kwargs) w)) /\
  (is_Some (deref w (default default_array_kwargs array_kwargs) !! "processes") ->
   deref w (default default_array_kwargs array_kwargs) !! "chunksize" = None ->
   fst (diff_array nice_log default_array_kwargs features force func array_kwargs w)
   = Raise (KeyError "chunksize")) /\
  (array_kwargs = None -> deref w default_array_kwargs = ∅ ->
   fst (diff_array nice_log default_array_kwargs features force func array_kwargs w)
   = Raise (KeyError "processes")).
Proof.
  set (l := default default_array_kwargs array_kwargs).
  assert (Hd : deref (copied features l w) (fresh (dom (dicts w))) = deref w l).
  { unfold copied. apply deref_insert_eq. }
  assert (Hmiss : deref w l !! "processes" = None ->
    diff_array nice_log default_array_kwargs features force func array_kwargs w
    = (Raise (KeyError "processes"), copied features l w)).
  { intros Hp. unfold diff_array. fold l. cbv zeta.
    diff_start features l w.
    apply bind_raise, pop_missing. rewrite Hd. exact Hp. }
  split; [exact Hmiss|]. split.
  - intros [v Hp] Hc. unfold diff_array. fold l. cbv zeta.
    diff_start features l w.
    rewrite (bind_ok _ _ _ _ _ (pop_found _ _ v _ ltac:(rewrite Hd; exact Hp))).
    erewrite bind_raise; [reflexivity|].
    apply pop_missing.
    rewrite deref_insert_eq, Hd. rewrite lookup_delete_ne by discriminate. exact Hc.
  - intros -> Hempty. rewrite Hmiss; [reflexivity|].
    subst l. simpl. rewrite Hempty. apply lookup_empty.
Qed.


Lemma pops_run {B} (features : list Interval) (l : nat) (w : world A)
    (d : gmap string pyval) (k : M (world A) B) :
  deref w l = d ->
  is_Some (d !! "processes") -> is_Some (d !! "chunksize") ->
  bind (pop (fresh (dom (dicts w))) "processes") (fun _ =>
  bind (pop (fresh (dom (dicts w))) "chunksize") (fun _ => k))
    (copied features l w)
  = k (popped features l w).
Proof.
  intros Hd [vp Hp] [vc Hc].
  assert (Hcopy : deref (copied features l w) (fresh (dom (dicts w))) = d).
  { unfold copied. rewrite deref_insert_eq. exact Hd. }
  rewrite (bind_ok _ _ _ _ _
             (pop_found _ _ vp _ ltac:(rewrite Hcopy; exact Hp))).
  rewrite Hcopy. cbn [dicts self copied].
  erewrite bind_ok;
    [|apply (pop_found _ _ vc); rewrite deref_insert_eq, lookup_delete_ne by discriminate;
      exact Hc].
  rewrite deref_insert_eq. cbn [dicts self].
  unfold popped. rewrite !insert_insert_eq, Hd. reflexivity.
Qed.

(** [diff_array] leaves the caller's dict alone: it pops from a copy. *)
Lemma diff_array_store (features : list Interval) (force : bool)
    (func : option (ndarray A -> ndarray A)) (l : nat) (w : world A)
    (d : gmap string pyval) :
  dicts w !! l = Some d ->
  dicts (snd (diff_array nice_log default_array_kwargs features force func
                (Some l) w)) !! l = Some d.
Proof.
  intros Hl.
  pose proof (fresh_ne _ _ _ Hl) as Hne.
  assert (Hd : deref w l = d) by (unfold deref; simpl; rewrite Hl; reflexivity).
  unfold diff_array. cbv zeta.
  diff_start features l w.
  assert (Hcopy : deref (copied features l w) (fresh (dom (dicts w))) = d).
  { unfold copied. rewrite deref_insert_eq. exact Hd. }
  destruct (d !! "processes") as [vp|] eqn:Hp.
  2:{ erewrite bind_raise; [|apply pop_missing; rewrite Hcopy; exact Hp].
      simpl. rewrite lookup_insert_ne by exact Hne. exact Hl. }
  assert (Hp' : deref (copied features l w) (fresh (dom (dicts w))) !! "processes"
                = Some vp) by (rewrite Hcopy; exact Hp).
  destruct (d !! "chunksize") as [vc|] eqn:Hc.
  2:{ rewrite (bind_ok _ _ _ _ _ (pop_found _ _ vp _ Hp')).
      erewrite bind_raise;
        [|apply pop_missing; rewrite deref_insert_eq, Hcopy,
            lookup_delete_ne by discriminate; exact Hc].
      simpl. rewrite !lookup_insert_ne by exact Hne. exact Hl. }
  rewrite (pops_run features l w d) by eauto.
  match goal with
  | |- dicts (snd (?k ?s)) !! l = _ =>
      replace (dicts (snd (k s))) with (dicts s);
      [|symmetry; change (store_of (snd (k s)) = store_of s);
        generalize s; change (keeps k)]
  end.
  - unfold popped. simpl. rewrite lookup_insert_ne by exact Hne. exact Hl.
  - repeat first
      [ apply keeps_ret | apply keeps_raise | apply keeps_lift | apply keeps_read
      | apply keeps_update_self | apply keeps_get_self
      | apply keeps_bind; [|intros ?]
      | match goal with |- keeps (if ?b then _ else _) => destruct b end
      | match goal with |- keeps (match ?x with _ => _ end) => destruct x end ].
Qed.

(** The spec's [normalize(raw_matrix, library_size)]: every element divided
    by [library_size / 1e6]. *)
Definition normalize (raw : ndarray A) (library_size : Z) : ndarray A :=
  mkArray (ncols raw)
          (map (map (fun v => div v (div (of_int library_size) (of_int 1000000))))
               (rows raw)).

(** [a[i, j]] *)
Definition entry (a : ndarray A) (i j : nat) : option A :=
  rows a !! i ≫= (fun row => row !! j).


Lemma entry_normalize (raw : ndarray A) (L : Z) (i j : nat) :
  entry (normalize raw L) i j
  = (fun v => div v (div (of_int L) (of_int 1000000))) <$> entry raw i j.
Proof.
  unfold entry, normalize. simpl. rewrite lookup_map.
  destruct (rows raw !! i) as [row|]; simpl; [|reflexivity].
  apply lookup_map.
Qed.

Lemma recompute_run (sig : Signal A) (features : list Interval) (l : nat)
    (set : ndarray A -> Chipseq A -> Chipseq A) (w : world A)
    (d : gmap string pyval) (raw : ndarray A) :
  deref w l = d ->
  array sig features d = Ok raw ->
  bind (read l) (fun kwargs =>
  bind (lift (array sig features kwargs)) (fun a =>
  bind (update_self (set a)) (fun _ =>
  update_self (set (div_scalar a (million_mapped_reads sig)))))) w
  = (Ok tt,
     mkWorld (set (div_scalar raw (million_mapped_reads sig)) (set raw (self w)))
             (dicts w)).
Proof.
  intros Hd Hraw. unfold bind, read, lift, update_self, modify.
  rewrite Hd, Hraw. reflexivity.
Qed.

Lemma normalize_div_scalar (raw : ndarray A) (sig : Signal A) :
  div_scalar raw (million_mapped_reads sig) = normalize raw (library_size sig).
Proof. reflexivity. Qed.



Lemma prepare_lookups (windowsize : Z) (d : gmap string pyval) :
  prepare windowsize d !! "read_strand" = None /\
  prepare windowsize d !! "bins" = Some (default (VInt windowsize) (d !! "bins")) /\
  (forall k, k <> "read_strand" -> k <> "bins" -> prepare windowsize d !! k = d !! k).
Proof.
  unfold prepare.
  assert (Hb : delete "read_strand" d !! "bins" = d !! "bins")
    by (apply lookup_delete_ne; discriminate).
  destruct (bool_decide (is_Some (delete "read_strand" d !! "bins"))) eqn:Hbins.
  - apply bool_decide_eq_true in Hbins. destruct Hbins as [v Hv].
    split; [apply lookup_delete_eq|]. split.
    + rewrite Hv. rewrite <- Hb, Hv. reflexivity.
    + intros k Hk _. apply lookup_delete_ne. congruence.
  - apply bool_decide_eq_false in Hbins.
    assert (Hnone : d !! "bins" = None).
    { rewrite <- Hb. destruct (delete "read_strand" d !! "bins") eqn:Hx; [|reflexivity].
      exfalso. apply Hbins. eauto. }
    split; [rewrite lookup_insert_ne by discriminate; apply lookup_delete_eq|]. split.
    + rewrite lookup_insert_eq, Hnone. reflexivity.
    + intros k Hk1 Hk2. rewrite lookup_insert_ne by congruence.
      apply lookup_delete_ne. congruence.
Qed.

(** C10.  [estimate_shift] rewrites the dict it is handed, in place:
    whatever the call returns or raises, the caller's dict has lost
    ['read_strand'], has gained ['bins'] = [windowsize] unless it had
    ['bins'], and is otherwise as before.  [diff_array] works on a copy:
    after the call the caller's dict is what it was. *)
Theorem estimate_shift_rewrites_kwargs_diff_array_copies
    window_maker shuffle (signal : Signal A) (genome : option string)
    (windowsize : Z) (thresh : option A) (nwindows maxlag : Z) (verbose : bool)
    (ws : Shift.world)
    (features : list Interval) (force : bool)
    (func : option (ndarray A -> ndarray A)) (wd : world A)
    (l : nat) (d : gmap string pyval) :
  Shift.dicts ws !! l = Some d ->
  dicts wd !! l = Some d ->
  Shift.dicts (snd (Shift.estimate_shift window_maker shuffle signal genome
                      windowsize thresh nwindows maxlag (Some l) verbose ws)) !! l
    = Some (prepare windowsize d) /\
  prepare windowsize d !! "read_strand" = None /\
  prepare windowsize d !! "bins" = Some (default (VInt windowsize) (d !! "bins")) /\
  (forall k, k <> "read_strand" -> k <> "bins" -> prepare windowsize d !! k = d !! k) /\
  dicts (snd (diff_array nice_log default_array_kwargs features force func
                (Some l) wd)) !! l = Some d.
Proof.
  intros Hs Hd.
  split; [|split; [|split; [|split]]]; try apply prepare_lookups.
  - rewrite estimate_shift_store, lookup_insert_eq.
    unfold deref. simpl. rewrite Hs. reflexivity.
  - apply diff_array_store, Hd.
Qed.

End WithArith.



(** ** Sample runs *)

(** The keyword arguments of the module's own [xcorr] example. *)
Definition xcorr_kwargs : gmap string pyval :=
  {[ "processes" := VInt 8; "chunksize" := VInt 100; "fragment_size" := VInt 1 ]}.

(** A [Chipseq] object right after [__init__]. *)
Definition fresh_chipseq {A} (ip control : Signal A) : Chipseq A :=
  mkChipseq ip control None None None None None.

Lemma estimate_shift_rewrites_kwargs_diff_array_copies_witness :
  Shift.dicts (snd (Shift.estimate_shift no_windows no_shuffle two_strands None 3
                      (Some 0.5%float) 1000 1 (Some 0%nat) false
                      (Shift.mkWorld {[ 0%nat := xcorr_kwargs ]} [] false)))
    !! 0%nat = Some (prepare 3 xcorr_kwargs) /\
  prepare 3 xcorr_kwargs !! "read_strand" = None /\
  prepare 3 xcorr_kwargs !! "bins" = Some (default (VInt 3) (xcorr_kwargs !! "bins")) /\
  (forall k, k <> "read_strand" -> k <> "bins" ->
             prepare 3 xcorr_kwargs !! k = xcorr_kwargs !! k) /\
  dicts (snd (diff_array (fun a => a) 7 [] true None (Some 0%nat)
                (mkWorld (fresh_chipseq two_strands two_strands)
                         {[ 0%nat := xcorr_kwargs ]})))
    !! 0%nat = Some xcorr_kwargs.
Proof.
  apply (estimate_shift_rewrites_kwargs_diff_array_copies (fun a => a) 7
           no_windows no_shuffle two_strands None 3 (Some 0.5%float) 1000 1 false
           (Shift.mkWorld {[ 0%nat := xcorr_kwargs ]} [] false)
           [] true None
           (mkWorld (fresh_chipseq two_strands two_strands)
                    {[ 0%nat := xcorr_kwargs ]})
           0%nat xcorr_kwargs).
  - reflexivity.
  - reflexivity.
Defined.

(** The keyword arguments of the class docstring. *)
Definition local_coverage_kwargs : gmap string pyval :=
  {[ "fragment_size" := VInt 200; "bins" := VInt 100;
     "chunksize" := VInt 50; "processes" := VInt 6 ]}.

(** Two signal sources over two features and two bins, with two million
    and four million mapped reads. *)
Definition ip_source : Signal R :=
  mkSignal R "hg19" (fun _ _ => Ok (mkArray 2 [[10; 20]; [30; 40]]%R)) 2000000.
Definition control_source : Signal R :=
  mkSignal R "hg19" (fun _ _ => Ok (mkArray 2 [[4; 8]; [12; 16]]%R)) 4000000.

Definition session : world R :=
  mkWorld (fresh_chipseq ip_source control_source) {[ 0%nat := local_coverage_kwargs ]}.


Example diff_array_default_kwargs :
  fst (diff_array (A := float) (fun a => a) 7 [] true None None
         (mkWorld (fresh_chipseq two_strands two_strands) {[ 7%nat := ∅ ]}))
  = Raise (KeyError "processes").
Proof. vm_compute. reflexivity. Qed.

Example diff_array_without_chunksize :
  fst (diff_array (A := float) (fun a => a) 7 [] true None (Some 0%nat)
         (mkWorld (fresh_chipseq two_strands two_strands)
                  {[ 0%nat := {[ "processes" := VInt 6; "bins" := VInt 100 ]} ]}))
  = Raise (KeyError "chunksize").
Proof. vm_compute. reflexivity. Qed.

End DiffFacts.

(** ** The pick-event handler: indices that do not resolve, and the points
    as a whole *)

Module SelectionFacts.

Import Dispatch DispatchFacts ShiftFacts.

(** [resolve] raises nothing but [IndexError]. *)
Lemma getitem_raises {A} (l : list A) (k : Z) (e : exn) :
  getitem l k = Raise e -> e = IndexError.
Proof.
  unfold getitem.
  destruct ((0 <=? _) && _)%Z; [destruct (l !! _)|]; intros Hr; congruence.
Qed.

Lemma resolve_raises (artist : Artist) (i : Z) (e : exn) :
  resolve artist i = Raise e -> e = IndexError.
Proof.
  unfold resolve. destruct (getitem (reversed (ind artist)) i) as [row|e'] eqn:Hrow; simpl.
  - apply getitem_raises.
  - intros Hr. inversion Hr; subst. eapply getitem_raises, Hrow.
Qed.

Lemma loop_stops (artist : Artist) (browser : bool) (before : list Z) :
  forall (fs : list Interval) (i : Z) (after : list Z) (e : exn) (tr : list action),
  resolve_all artist before = Ok fs ->
  resolve artist i = Raise e ->
  for_ (before ++ i :: after) (body artist browser) tr
  = (Raise e, tr ++ flat_map (turn browser) fs).
Proof.
  induction before as [|j before IH]; intros fs i after e tr Hall Hi; simpl in Hall.
  - inversion Hall; subst. simpl. unfold bind.
    rewrite (body_raise _ _ _ _ _ Hi), app_nil_r. reflexivity.
  - destruct (resolve artist j) as [f|] eqn:Hj; simpl in Hall; [|discriminate].
    destruct (resolve_all artist before) as [fs'|] eqn:Hrest; simpl in Hall;
      [|discriminate].
    inversion Hall; subst. simpl. unfold bind at 1.
    rewrite (body_ok _ _ _ _ _ Hj), (IH fs' i after e _ eq_refl Hi).
    rewrite <- app_assoc. reflexivity.
Qed.

(** The pick-event handler gives up at the first index that does not
    resolve: it raises [IndexError] there.  The features picked before it
    have been printed (and their browsers opened, unless the selection is
    too large); nothing is done for the indices after it. *)
Theorem callback_stops_at_first_unresolved (event : PickEvent) (tr : list action)
    (before after : list Z) (i : Z) (fs : list Interval) (e : exn) :
  ev_ind event = before ++ i :: after ->
  resolve_all (ev_artist event) before = Ok fs ->
  resolve (ev_artist event) i = Raise e ->
  e = IndexError /\
  callback event tr
  = (Raise IndexError,
     tr ++ (if (5 <? Z.of_nat (length (ev_ind event)))%Z
            then PrintNotice 5 :: map PrintFeature fs
            else flat_map (turn true) fs)).
Proof.
  intros Hsplit Hall Hi.
  pose proof (resolve_raises _ _ _ Hi) as ->. split; [reflexivity|].
  rewrite callback_unfold.
  destruct (5 <? Z.of_nat (length (ev_ind event)))%Z; rewrite Hsplit.
  - rewrite (loop_stops _ _ _ fs i after IndexError _ Hall Hi).
    rewrite turns_off, <- app_assoc. reflexivity.
  - apply loop_stops; assumption.
Qed.

Lemma callback_stops_at_first_unresolved_witness :
  IndexError = IndexError /\
  callback (mkPickEvent three_line [1; 7; 0]%Z) []
  = (Raise IndexError,
     [] ++ (if (5 <? Z.of_nat (length (ev_ind (mkPickEvent three_line [1; 7; 0]%Z))))%Z
            then PrintNotice 5 :: map PrintFeature [gene "a"]
            else flat_map (turn true) [gene "a"])).
Proof.
  apply (callback_stops_at_first_unresolved (mkPickEvent three_line [1; 7; 0]%Z) []
           [1]%Z [0]%Z 7%Z [gene "a"] IndexError).
  - reflexivity.
  - reflexivity.
  - reflexivity.
Defined.

(** The rows as integers [0 .. n-1]. *)
Definition points (n : nat) : list Z := map Z.of_nat (seq 0 n).

Lemma resolve_all_map (artist : Artist) (picked : list Z) (fs : list Interval) :
  resolve_all artist picked = Ok fs ->
  map Some fs = map (fun i => match resolve artist i with
                              | Ok f => Some f
                              | Raise _ => None
                              end) picked.
Proof.
  revert fs. induction picked as [|i picked IH]; intros fs Hall; simpl in Hall.
  - inversion Hall. reflexivity.
  - destruct (resolve artist i) as [f|] eqn:Hi; simpl in Hall; [|discriminate].
    destruct (resolve_all artist picked) as [fs'|]; simpl in Hall; [|discriminate].
    inversion Hall; subst. simpl. rewrite Hi, (IH fs' eq_refl). reflexivity.
Qed.

Lemma map_Some_inj {B} (a : list B) : forall b, map Some a = map Some b -> a = b.
Proof.
  induction a as [|x a IH]; intros [|y b] Heq; simpl in Heq; try discriminate.
  - reflexivity.
  - inversion Heq; subst. f_equal. apply IH. assumption.
Qed.

(** When the row order is a permutation of the rows, the strip points and
    the features correspond one to one: resolving every point once yields
    every feature once. *)
Theorem points_reach_every_feature_once (artist : Artist) :
  ind artist ≡ₚ points (length (features artist)) ->
  exists fs,
    resolve_all artist (points (length (features artist))) = Ok fs /\
    fs ≡ₚ features artist.
Proof.
  intros Hperm. set (n := length (features artist)) in *.
  assert (Hlen : length (ind artist) = n).
  { rewrite (Permutation_length Hperm). unfold points.
    rewrite length_map, length_seq. reflexivity. }
  assert (Hrows : Forall (fun row => (0 <= row < Z.of_nat n)%Z) (ind artist)).
  { rewrite Hperm. unfold points. apply Forall_forall. intros row Hrow.
    apply list_elem_of_In, in_map_iff in Hrow. destruct Hrow as (k & <- & Hk).
    apply in_seq in Hk. lia. }
  assert (Hpts : Forall (fun i => (0 <= i < Z.of_nat (length (ind artist)))%Z) (points n)).
  { rewrite Hlen. unfold points. apply Forall_forall. intros row Hrow.
    apply list_elem_of_In, in_map_iff in Hrow. destruct Hrow as (k & <- & Hk).
    apply in_seq in Hk. lia. }
  destruct (resolve_all_in_range artist (points n) Hpts Hrows) as [fs Hfs].
  exists fs. split; [exact Hfs|].
  (* the features, one per point, are the rows listed by the reversed row order *)
  assert (Hmap : map Some fs
                 = map (fun row => features artist !! Z.to_nat row) (reverse (ind artist))).
  { rewrite (resolve_all_map _ _ _ Hfs).
    apply list_eq. intros j.
    rewrite !lookup_map. unfold points. rewrite lookup_map.
    destruct (decide (j < n)%nat) as [Hj|Hj].
    - rewrite lookup_seq_lt by exact Hj. simpl.
      rewrite reverse_lookup by lia.
      destruct (resolve_in_range artist (Z.of_nat j)) as (row & f & Hrow & Hf & Hr);
        [lia|exact Hrows|].
      rewrite Hr. rewrite Nat2Z.id in Hrow.
      replace (length (ind artist) - S j)%nat with (length (ind artist) - 1 - j)%nat by lia.
      rewrite Hrow. simpl. congruence.
    - rewrite lookup_seq_ge by lia. simpl.
      rewrite lookup_ge_None_2; [reflexivity|]. rewrite length_reverse. lia. }
  assert (Hall : map Some (features artist)
                 = map (fun row => features artist !! Z.to_nat row) (points n)).
  { unfold points. rewrite map_map. apply list_eq. intros j.
    rewrite !lookup_map.
    destruct (decide (j < n)%nat) as [Hj|Hj].
    - rewrite lookup_seq_lt by exact Hj. simpl. rewrite Nat2Z.id.
      destruct (features artist !! j) eqn:Hf; [reflexivity|].
      apply lookup_ge_None in Hf. lia.
    - rewrite lookup_seq_ge by lia. rewrite lookup_ge_None_2 by (unfold n in Hj; lia).
      reflexivity. }
  assert (Hp : map Some fs ≡ₚ map Some (features artist)).
  { rewrite Hmap, Hall. apply Permutation_map.
    rewrite reverse_Permutation. exact Hperm. }
  destruct (Permutation_map_inv _ _ Hp) as (fs' & Heq & Hfs').
  apply map_Some_inj in Heq. subst fs'. symmetry. exact Hfs'.
Qed.

Lemma points_reach_every_feature_once_witness :
  exists fs,
    resolve_all three_line (points (length (features three_line))) = Ok fs /\
    fs ≡ₚ features three_line.
Proof.
  apply (points_reach_every_feature_once three_line).
  apply (bool_decide_unpack _). vm_compute. exact I.
Defined.

End SelectionFacts.

(** ** The differential array: what is stored, what is reused, what is
    left when a step fails *)

Module DiffArrayFacts.

Import Shift ShiftFacts Dispatch Diff DiffFacts.

(** Computations that leave an observation [g] of the world as it is. *)
Definition stable {S X B} (g : S -> X) (m : M S B) : Prop :=
  forall s, g (snd (m s)) = g s.

Lemma stable_bind {S X B C} (g : S -> X) (m : M S B) (k : B -> M S C) :
  stable g m -> (forall a, stable g (k a)) -> stable g (bind m k).
Proof.
  intros Hm Hk s. unfold bind. specialize (Hm s).
  destruct (m s) as [[a|e] s']; simpl in *.
  - rewrite Hk. exact Hm.
  - exact Hm.
Qed.

Lemma stable_ret {S X B} (g : S -> X) (a : B) : stable g (ret a).
Proof. intros s. reflexivity. Qed.

Lemma stable_raise {S X B} (g : S -> X) (e : exn) : stable g (raise (A := B) e).
Proof. intros s. reflexivity. Qed.

Lemma stable_lift {S X B} (g : S -> X) (r : res B) : stable g (lift r).
Proof. intros s. reflexivity. Qed.

Section WithArith.
Context {A : Type} `{Arith A}.

Lemma stable_read {X} (g : world A -> X) (l : nat) : stable g (read l).
Proof. intros s. reflexivity. Qed.

Lemma stable_get_self {X} (g : world A -> X) : stable g get_self.
Proof. intros s. reflexivity. Qed.

Lemma stable_update_self {X} (g : world A -> X) (f : Chipseq A -> Chipseq A) :
  (forall s, g (mkWorld (f (self s)) (dicts s)) = g s) ->
  stable g (update_self f).
Proof. intros Hf s. apply Hf. Qed.

Lemma read_d (l : nat) (w : world A) : read l w = (Ok (deref w l), w).
Proof. reflexivity. Qed.

Variable nice_log : ndarray A -> ndarray A.
Variable default_array_kwargs : nat.

Ltac start_diff features l w :=
  unfold diff_array; cbv zeta;
  rewrite (bind_ok _ _ _ _ _ (update_self_run _ _));
  rewrite (bind_ok _ _ _ _ _ (copy_run _ _));
  rewrite (bind_ok _ _ _ _ _ (update_self_run _ _));
  match goal with
  | |- context [bind _ _ ?s] => change s with (copied features l w)
  end;
  match goal with
  | |- context [pop ?l0 "processes"] => change l0 with (fresh (dom (dicts w)))
  end.

(** What the mini-browser will be given: the keyword arguments of the
    call without ['processes'] and ['chunksize'], in a dict of its own. *)
Definition browser_kwargs (w : world A) : option (gmap string pyval) :=
  l0 ← browser_local_coverage_kwargs (self w); dicts w !! l0.

(** Once both keys have been found, [diff_array] has set
    [browser_local_coverage_kwargs] to a new dict that holds the caller's
    keyword arguments without ['processes'] and ['chunksize']; this holds
    whatever the rest of the call does, and the new dict is not the
    caller's. *)
Theorem diff_array_browser_kwargs (features : list Interval) (force : bool)
    (func : option (ndarray A -> ndarray A)) (l : nat) (w : world A)
    (d : gmap string pyval) :
  dicts w !! l = Some d ->
  is_Some (d !! "processes") -> is_Some (d !! "chunksize") ->
  exists l0,
    browser_local_coverage_kwargs
      (self (snd (diff_array nice_log default_array_kwargs features force func
                    (Some l) w))) = Some l0 /\
    l0 <> l /\ dicts w !! l0 = None /\
    browser_kwargs (snd (diff_array nice_log default_array_kwargs features force func
                           (Some l) w))
    = Some (delete "chunksize" (delete "processes" d)).
Proof.
  intros Hl Hp Hc.
  assert (Hd : deref w l = d) by (unfold deref; simpl; rewrite Hl; reflexivity).
  exists (fresh (dom (dicts w))).
  assert (Hrun : forall X (g : world A -> X),
    (forall c c' h, browser_local_coverage_kwargs c = browser_local_coverage_kwargs c' ->
                    g (mkWorld c h) = g (mkWorld c' h)) ->
    g (snd (diff_array nice_log default_array_kwargs features force func (Some l) w))
    = g (popped features l w)).
  { intros X g Hg. start_diff features l w.
    rewrite (pops_run features l w d) by assumption.
    match goal with
    | |- g (snd (?k ?s)) = _ => generalize s; change (stable g k)
    end.
    repeat first
      [ apply stable_ret | apply stable_raise | apply stable_lift | apply stable_read
      | apply stable_get_self
      | apply stable_update_self; intros [c h]; apply Hg; reflexivity
      | apply stable_bind; [|intros ?]
      | match goal with |- stable _ (if ?b then _ else _) => destruct b end
      | match goal with |- stable _ (match ?x with _ => _ end) => destruct x end ]. }
  split; [|split; [|split]].
  - rewrite (Hrun _ (fun s => browser_local_coverage_kwargs (self s)));
      [reflexivity | intros c c' h Hcc; exact Hcc].
  - eapply fresh_ne, Hl.
  - apply not_elem_of_dom, is_fresh.
  - rewrite (Hrun _ browser_kwargs).
    + unfold browser_kwargs, popped. simpl. rewrite lookup_insert_eq, Hd. reflexivity.
    + intros c c' h Hcc. unfold browser_kwargs. simpl. rewrite Hcc. reflexivity.
Qed.


(** When the control source raises, [diff_array] raises the same exception
    half way: [features] and [ip_array] are those of the new call, while
    [control_array] and [diffed_array] are still the old ones. *)
Theorem diff_array_control_failure (features : list Interval)
    (func : option (ndarray A -> ndarray A)) (l : nat) (w : world A)
    (d : gmap string pyval) (raw_ip : ndarray A) (e : exn) :
  dicts w !! l = Some d ->
  is_Some (d !! "processes") -> is_Some (d !! "chunksize") ->
  array (ip (self w)) features d = Ok raw_ip ->
  array (control (self w)) features d = Raise e ->
  fst (diff_array nice_log default_array_kwargs features true func (Some l) w)
    = Raise e /\
  self (snd (diff_array nice_log default_array_kwargs features true func (Some l) w))
    = mkChipseq (ip (self w)) (control (self w)) (Some features)
                (Some (fresh (dom (dicts w))))
                (Some (normalize raw_ip (library_size (ip (self w)))))
                (control_array (self w)) (diffed_array (self w)).
Proof.
  intros Hl Hp Hc Hip Hcontrol.
  assert (Hd : deref w l = d) by (unfold deref; simpl; rewrite Hl; reflexivity).
  assert (Hne : fresh (dom (dicts w)) <> l) by (eapply fresh_ne; eassumption).
  start_diff features l w.
  rewrite (pops_run features l w d) by assumption.
  rewrite (bind_ok _ _ _ _ _ (get_self_run _)).
  rewrite orb_true_r. cbv iota.
  erewrite bind_ok;
    [|eapply (recompute_run _ features _ set_ip_array _ d raw_ip);
      [unfold popped, deref; simpl; rewrite lookup_insert_ne by exact Hne;
       rewrite Hl; reflexivity
      |exact Hip]].
  rewrite (bind_ok _ _ _ _ _ (get_self_run _)).
  rewrite orb_true_r. cbv iota.
  erewrite bind_raise; cycle 1.
  - rewrite (bind_ok _ _ _ _ _ (read_d _ _)).
    apply bind_raise, lift_raise.
    unfold popped, deref. simpl. rewrite lookup_insert_ne by exact Hne.
    rewrite Hl. exact Hcontrol.
  - split; reflexivity.
Qed.

Lemma diff_array_recompute_run (features : list Interval)
    (func : option (ndarray A -> ndarray A)) (l : nat) (w : world A)
    (d : gmap string pyval) (raw_ip raw_control dd : ndarray A) :
  dicts w !! l = Some d ->
  is_Some (d !! "processes") -> is_Some (d !! "chunksize") ->
  array (ip (self w)) features d = Ok raw_ip ->
  array (control (self w)) features d = Ok raw_control ->
  subtract (normalize raw_ip (library_size (ip (self w))))
           (normalize raw_control (library_size (control (self w)))) = Ok dd ->
  diff_array nice_log default_array_kwargs features true func (Some l) w
  = (Ok tt,
     mkWorld
       (mkChipseq (ip (self w)) (control (self w)) (Some features)
                  (Some (fresh (dom (dicts w))))
                  (Some (normalize raw_ip (library_size (ip (self w)))))
                  (Some (normalize raw_control (library_size (control (self w)))))
                  (Some (default nice_log func dd)))
       (<[fresh (dom (dicts w)) := delete "chunksize" (delete "processes" d)]>
          (dicts w))).
Proof.
  intros Hl Hp Hc Hip Hcontrol Hsub.
  assert (Hd : deref w l = d) by (unfold deref; simpl; rewrite Hl; reflexivity).
  assert (Hne : fresh (dom (dicts w)) <> l) by (eapply fresh_ne; eassumption).
  start_diff features l w.
  rewrite (pops_run features l w d) by assumption.
  rewrite (bind_ok _ _ _ _ _ (get_self_run _)).
  rewrite orb_true_r. cbv iota.
  erewrite bind_ok;
    [|eapply (recompute_run _ features _ set_ip_array _ d raw_ip);
      [unfold popped, deref; simpl; rewrite lookup_insert_ne by exact Hne;
       rewrite Hl; reflexivity
      |exact Hip]].
  rewrite (bind_ok _ _ _ _ _ (get_self_run _)).
  rewrite orb_true_r. cbv iota.
  erewrite bind_ok;
    [|eapply (recompute_run _ features _ set_control_array _ d raw_control);
      [unfold popped, deref; simpl; rewrite lookup_insert_ne by exact Hne;
       rewrite Hl; reflexivity
      |exact Hcontrol]].
  rewrite (bind_ok _ _ _ _ _ (get_self_run _)).
  cbn [self ip_array control_array set_ip_array set_control_array].
  rewrite !normalize_div_scalar.
  rewrite (bind_ok _ _ _ dd _ (lift_ok _ _ _ Hsub)).
  unfold update_self, modify, set_diffed_array, popped. simpl.
  rewrite Hd. reflexivity.
Qed.

Lemma zip_rows_same_length (c : nat) (ras : list (list A)) :
  forall rbs : list (list A),
  Forall (fun r => length r = c) ras -> Forall (fun r => length r = c) rbs ->
  zip_with (fun ra rb => zip_with sub (stretch c ra) (stretch c rb)) ras rbs
  = zip_with (zip_with sub) ras rbs.
Proof.
  induction ras as [|ra ras IH]; intros [|rb rbs] Ha Hb; simpl; auto.
  apply Forall_cons in Ha as [Hra Ha]. apply Forall_cons in Hb as [Hrb Hb].
  rewrite <- Hra at 1. rewrite stretch_same.
  rewrite <- Hrb at 1. rewrite stretch_same.
  f_equal. apply IH; assumption.
Qed.

(** Subtraction of two arrays of one shape goes entry by entry. *)
Lemma subtract_same_shape (a b : ndarray A) :
  nrows a = nrows b -> ncols a = ncols b ->
  well_shaped a -> well_shaped b ->
  subtract a b
  = Ok (mkArray (ncols a) (zip_with (zip_with sub) (rows a) (rows b))).
Proof.
  intros Hr Hc Ha Hb. unfold subtract, nrows in *.
  rewrite <- Hr, <- Hc, !broadcast_len_same. simpl.
  rewrite stretch_same. rewrite Hr at 1. rewrite stretch_same. do 2 f_equal.
  unfold well_shaped in *. rewrite <- Hc in Hb.
  apply zip_rows_same_length; assumption.
Qed.

Lemma entry_subtract (a b : ndarray A) (i j : nat) (u v : A) :
  entry a i j = Some u -> entry b i j = Some v ->
  entry (mkArray (ncols a) (zip_with (zip_with sub) (rows a) (rows b))) i j
  = Some (sub u v).
Proof.
  unfold entry. simpl. intros Ha Hb.
  destruct (rows a !! i) as [ra|] eqn:Hra; simpl in Ha; [|discriminate].
  destruct (rows b !! i) as [rb|] eqn:Hrb; simpl in Hb; [|discriminate].
  rewrite lookup_zip_with, Hra, Hrb. simpl.
  rewrite lookup_zip_with, Ha, Hb. reflexivity.
Qed.

(** What a recomputing call stores.  With both keys present and the two
    sources returning well-shaped arrays of one shape, [diff_array]
    returns normally and [diffed_array] is [func] (by default [nice_log])
    of the array whose entry [(i, j)] is the IP count divided by the IP
    source's million mapped reads, minus the same for the control. *)
Theorem diff_array_result (features : list Interval)
    (func : option (ndarray A -> ndarray A)) (l : nat) (w : world A)
    (d : gmap string pyval) (raw_ip raw_control : ndarray A) :
  dicts w !! l = Some d ->
  is_Some (d !! "processes") -> is_Some (d !! "chunksize") ->
  array (ip (self w)) features d = Ok raw_ip ->
  array (control (self w)) features d = Ok raw_control ->
  shape raw_ip = shape raw_control ->
  well_shaped raw_ip -> well_shaped raw_control ->
  exists dd,
    fst (diff_array nice_log default_array_kwargs features true func (Some l) w)
      = Ok tt /\
    diffed_array
      (self (snd (diff_array nice_log default_array_kwargs features true func
                    (Some l) w)))
      = Some (default nice_log func dd) /\
    shape dd = shape raw_ip /\
    forall i j u v,
      entry raw_ip i j = Some u -> entry raw_control i j = Some v ->
      entry dd i j
      = Some (sub (div u (million_mapped_reads (ip (self w))))
                  (div v (million_mapped_reads (control (self w))))).
Proof.
  intros Hl Hp Hc Hip Hcontrol Hshape Hwi Hwc.
  unfold shape in Hshape. inversion Hshape as [[Hr Hcols]].
  set (ni := normalize raw_ip (library_size (ip (self w)))).
  set (nc := normalize raw_control (library_size (control (self w)))).
  assert (Hsub : subtract ni nc
                 = Ok (mkArray (ncols ni) (zip_with (zip_with sub) (rows ni) (rows nc)))).
  { apply subtract_same_shape.
    - unfold nrows, ni, nc, normalize. simpl. rewrite !length_map. exact Hr.
    - exact Hcols.
    - unfold well_shaped, ni, normalize. simpl. apply Forall_forall.
      intros r' Hr'. apply list_elem_of_In, in_map_iff in Hr'.
      destruct Hr' as (r0 & <- & Hin). rewrite length_map.
      unfold well_shaped in Hwi. rewrite Forall_forall in Hwi.
      apply Hwi, list_elem_of_In, Hin.
    - unfold well_shaped, nc, normalize. simpl. apply Forall_forall.
      intros r' Hr'. apply list_elem_of_In, in_map_iff in Hr'.
      destruct Hr' as (r0 & <- & Hin). rewrite length_map.
      unfold well_shaped in Hwc. rewrite Forall_forall in Hwc.
      apply Hwc, list_elem_of_In, Hin. }
  eexists.
  rewrite (diff_array_recompute_run features func l w d raw_ip raw_control _
             Hl Hp Hc Hip Hcontrol Hsub).
  split; [reflexivity|]. split; [reflexivity|]. split.
  - unfold shape, nrows. simpl. rewrite length_zip_with.
    unfold ni, nc, normalize. simpl. rewrite !length_map.
    unfold nrows in Hr. rewrite <- Hr, Nat.min_id. reflexivity.
  - intros i j u v Hu Hv. apply entry_subtract.
    + unfold ni. rewrite entry_normalize, Hu. reflexivity.
    + unfold nc. rewrite entry_normalize, Hv. reflexivity.
Qed.

(** [diff_array] checks no shapes itself: when the two arrays differ in
    their number of rows and neither has a single row, the subtraction
    raises [ValueError]; by then both arrays have been replaced, and
    [diffed_array] is still the old one. *)
Theorem diff_array_shape_mismatch (features : list Interval)
    (func : option (ndarray A -> ndarray A)) (l : nat) (w : world A)
    (d : gmap string pyval) (raw_ip raw_control : ndarray A) :
  dicts w !! l = Some d ->
  is_Some (d !! "processes") -> is_Some (d !! "chunksize") ->
  array (ip (self w)) features d = Ok raw_ip ->
  array (control (self w)) features d = Ok raw_control ->
  nrows raw_ip <> nrows raw_control ->
  nrows raw_ip <> 1%nat -> nrows raw_control <> 1%nat ->
  fst (diff_array nice_log default_array_kwargs features true func (Some l) w)
    = Raise ValueError /\
  self (snd (diff_array nice_log default_array_kwargs features true func (Some l) w))
    = mkChipseq (ip (self w)) (control (self w)) (Some features)
                (Some (fresh (dom (dicts w))))
                (Some (normalize raw_ip (library_size (ip (self w)))))
                (Some (normalize raw_control (library_size (control (self w)))))
                (diffed_array (self w)).
Proof.
  intros Hl Hp Hc Hip Hcontrol Hrows Hi1 Hc1.
  assert (Hd : deref w l = d) by (unfold deref; simpl; rewrite Hl; reflexivity).
  assert (Hne : fresh (dom (dicts w)) <> l) by (eapply fresh_ne; eassumption).
  assert (Hsub : subtract (normalize raw_ip (library_size (ip (self w))))
                          (normalize raw_control (library_size (control (self w))))
                 = Raise ValueError).
  { unfold subtract, broadcast_len, nrows, normalize in *. simpl.
    rewrite !length_map.
    apply Nat.eqb_neq in Hrows, Hi1, Hc1. rewrite Hrows, Hi1, Hc1. reflexivity. }
  start_diff features l w.
  rewrite (pops_run features l w d) by assumption.
  rewrite (bind_ok _ _ _ _ _ (get_self_run _)).
  rewrite orb_true_r. cbv iota.
  erewrite bind_ok;
    [|eapply (recompute_run _ features _ set_ip_array _ d raw_ip);
      [unfold popped, deref; simpl; rewrite lookup_insert_ne by exact Hne;
       rewrite Hl; reflexivity
      |exact Hip]].
  rewrite (bind_ok _ _ _ _ _ (get_self_run _)).
  rewrite orb_true_r. cbv iota.
  erewrite bind_ok;
    [|eapply (recompute_run _ features _ set_control_array _ d raw_control);
      [unfold popped, deref; simpl; rewrite lookup_insert_ne by exact Hne;
       rewrite Hl; reflexivity
      |exact Hcontrol]].
  rewrite (bind_ok _ _ _ _ _ (get_self_run _)).
  cbn [self ip_array control_array set_ip_array set_control_array].
  rewrite !normalize_div_scalar.
  rewrite (bind_raise _ _ _ _ _ (lift_raise _ _ _ Hsub)).
  split; reflexivity.
Qed.

End WithArith.

Lemma zip_sub_self (r : list R) : zip_with Rminus r r = repeat 0%R (length r).
Proof. induction r as [|v r IH]; simpl; [reflexivity|]. rewrite IH. f_equal. lra. Qed.

Lemma zip_rows_self (c : nat) (rs : list (list R)) :
  Forall (fun r => length r = c) rs ->
  zip_with (zip_with Rminus) rs rs = repeat (repeat 0%R c) (length rs).
Proof.
  induction 1 as [|r rs Hr _ IH]; simpl; [reflexivity|].
  rewrite zip_sub_self, Hr, IH. reflexivity.
Qed.

(** In exact arithmetic: when the IP source and the control source return
    the same array and have the same library size, the array handed to
    [func] is all zeros, of the shape of the input. *)
Theorem diff_array_same_signal
    (nice_log : ndarray R -> ndarray R) (default_array_kwargs : nat)
    (features : list Interval) (func : option (ndarray R -> ndarray R))
    (l : nat) (w : world R) (d : gmap string pyval) (raw : ndarray R) :
  dicts w !! l = Some d ->
  is_Some (d !! "processes") -> is_Some (d !! "chunksize") ->
  array (ip (self w)) features d = Ok raw ->
  array (control (self w)) features d = Ok raw ->
  library_size (ip (self w)) = library_size (control (self w)) ->
  well_shaped raw ->
  diffed_array
    (self (snd (diff_array nice_log default_array_kwargs features true func
                  (Some l) w)))
  = Some (default nice_log func
            (mkArray (ncols raw) (repeat (repeat 0%R (ncols raw)) (nrows raw)))).
Proof.
  intros Hl Hp Hc Hip Hcontrol HL Hw.
  set (n := normalize raw (library_size (ip (self w)))).
  assert (Hwn : well_shaped n).
  { unfold well_shaped, n, normalize. simpl. apply Forall_forall.
    intros r' Hr'. apply list_elem_of_In, in_map_iff in Hr'.
    destruct Hr' as (r0 & <- & Hin). rewrite length_map.
    unfold well_shaped in Hw. rewrite Forall_forall in Hw.
    apply Hw, list_elem_of_In, Hin. }
  assert (Hsub : subtract n (normalize raw (library_size (control (self w))))
                 = Ok (mkArray (ncols raw)
                               (repeat (repeat 0%R (ncols raw)) (nrows raw)))).
  { rewrite <- HL. fold n.
    rewrite (subtract_same_shape n n eq_refl eq_refl Hwn Hwn).
    change (sub (A := R)) with Rminus.
    rewrite (zip_rows_self (ncols raw)) by exact Hwn.
    unfold n, normalize, nrows. simpl. rewrite length_map. reflexivity. }
  rewrite (diff_array_recompute_run nice_log default_array_kwargs features func l w d
             raw raw _ Hl Hp Hc Hip Hcontrol Hsub).
  reflexivity.
Qed.

(** *** Sample runs *)

Lemma diff_array_browser_kwargs_witness :
  exists l0,
    browser_local_coverage_kwargs
      (self (snd (diff_array (fun a => a) 7 [] true None (Some 0%nat) session)))
      = Some l0 /\
    l0 <> 0%nat /\ dicts session !! l0 = None /\
    browser_kwargs (snd (diff_array (fun a => a) 7 [] true None (Some 0%nat) session))
    = Some (delete "chunksize" (delete "processes" local_coverage_kwargs)).
Proof.
  apply (diff_array_browser_kwargs (fun a => a) 7 [] true None 0%nat session
           local_coverage_kwargs).
  - reflexivity.
  - exists (VInt 6). reflexivity.
  - exists (VInt 50). reflexivity.
Defined.

(** A signal source that cannot be read. *)
Definition unreadable : Signal R :=
  mkSignal R "hg19" (fun _ _ => Raise ValueError) 1000000.



(** A session whose control source cannot be read. *)
Definition without_control : world R :=
  mkWorld (fresh_chipseq ip_source unreadable) {[ 0%nat := local_coverage_kwargs ]}.

Lemma diff_array_control_failure_witness :
  fst (diff_array (fun a => a) 7 [] true None (Some 0%nat) without_control)
    = Raise ValueError /\
  self (snd (diff_array (fun a => a) 7 [] true None (Some 0%nat) without_control))
    = mkChipseq (ip (self without_control)) (control (self without_control))
                (Some []) (Some (fresh (dom (dicts without_control))))
                (Some (normalize (mkArray 2 [[10; 20]; [30; 40]]%R)
                                 (library_size (ip (self without_control)))))
                (control_array (self without_control))
                (diffed_array (self without_control)).
Proof.
  apply (diff_array_control_failure (fun a => a) 7 [] None 0%nat without_control
           local_coverage_kwargs (mkArray 2 [[10; 20]; [30; 40]]%R) ValueError).
  - reflexivity.
  - exists (VInt 6). reflexivity.
  - exists (VInt 50). reflexivity.
  - reflexivity.
  - reflexivity.
Defined.

Lemma diff_array_result_witness :
  exists dd,
    fst (diff_array (fun a => a) 7 [] true None (Some 0%nat) session) = Ok tt /\
    diffed_array
      (self (snd (diff_array (fun a => a) 7 [] true None (Some 0%nat) session)))
      = Some (default (fun a => a) None dd) /\
    shape dd = shape (mkArray 2 [[10; 20]; [30; 40]]%R) /\
    forall i j u v,
      entry (mkArray 2 [[10; 20]; [30; 40]]%R) i j = Some u ->
      entry (mkArray 2 [[4; 8]; [12; 16]]%R) i j = Some v ->
      entry dd i j
      = Some (sub (div u (million_mapped_reads (ip (self session))))
                  (div v (million_mapped_reads (control (self session))))).
Proof.
  apply (diff_array_result (fun a => a) 7 [] None 0%nat session
           local_coverage_kwargs).
  - reflexivity.
  - exists (VInt 6). reflexivity.
  - exists (VInt 50). reflexivity.
  - reflexivity.
  - reflexivity.
  - reflexivity.
  - repeat constructor.
  - repeat constructor.
Defined.

(** A control source with one row more than the IP source. *)
Definition longer_control : Signal R :=
  mkSignal R "hg19" (fun _ _ => Ok (mkArray 2 [[4; 8]; [12; 16]; [1; 1]]%R)) 4000000.

Definition mismatched : world R :=
  mkWorld (fresh_chipseq ip_source longer_control) {[ 0%nat := local_coverage_kwargs ]}.

Lemma diff_array_shape_mismatch_witness :
  fst (diff_array (fun a => a) 7 [] true None (Some 0%nat) mismatched)
    = Raise ValueError /\
  self (snd (diff_array (fun a => a) 7 [] true None (Some 0%nat) mismatched))
    = mkChipseq (ip (self mismatched)) (control (self mismatched))
                (Some []) (Some (fresh (dom (dicts mismatched))))
                (Some (normalize (mkArray 2 [[10; 20]; [30; 40]]%R)
                                 (library_size (ip (self mismatched)))))
                (Some (normalize (mkArray 2 [[4; 8]; [12; 16]; [1; 1]]%R)
                                 (library_size (control (self mismatched)))))
                (diffed_array (self mismatched)).
Proof.
  apply (diff_array_shape_mismatch (fun a => a) 7 [] None 0%nat mismatched
           local_coverage_kwargs).
  - reflexivity.
  - exists (VInt 6). reflexivity.
  - exists (VInt 50). reflexivity.
  - reflexivity.
  - reflexivity.
  - vm_compute. lia.
  - vm_compute. lia.
  - vm_compute. lia.
Defined.

Lemma diff_array_same_signal_witness :
  diffed_array
    (self (snd (diff_array (fun a => a) 7 [] true None (Some 0%nat)
                  (mkWorld (fresh_chipseq ip_source ip_source)
                           {[ 0%nat := local_coverage_kwargs ]}))))
  = Some (default (fun a => a) None
            (mkArray (ncols (mkArray 2 [[10; 20]; [30; 40]]%R))
               (repeat (repeat 0%R (ncols (mkArray 2 [[10; 20]; [30; 40]]%R)))
                       (nrows (mkArray 2 [[10; 20]; [30; 40]]%R))))).
Proof.
  apply (diff_array_same_signal (fun a => a) 7 [] None 0%nat
           (mkWorld (fresh_chipseq ip_source ip_source)
                    {[ 0%nat := local_coverage_kwargs ]})
           local_coverage_kwargs).
  - reflexivity.
  - exists (VInt 6). reflexivity.
  - exists (VInt 50). reflexivity.
  - reflexivity.
  - reflexivity.
  - reflexivity.
  - repeat constructor.
Defined.

End DiffArrayFacts.

(** ** The shift estimate: [maxlag] against the number of bins *)

Module LagFacts.

Import Dispatch Shift ShiftFacts.

Lemma slice_wrapped {B} (l : list B) (a b : Z) :
  (a < 0)%Z -> (Z.of_nat (length l) <= b)%Z ->
  slice l a b = drop (Z.to_nat (Z.max 0 (a + Z.of_nat (length l)))) l.
Proof.
  intros Ha Hb. unfold slice, slice_bound.
  replace (a <? 0)%Z with true by (symmetry; apply Z.ltb_lt; exact Ha).
  replace (b <? 0)%Z with false by (symmetry; apply Z.ltb_ge; lia).
  rewrite (Z.min_l _ (Z.max 0 b)) by lia.
  rewrite Z.min_r by lia.
  rewrite Nat2Z.id. apply take_ge. rewrite length_drop. lia.
Qed.

Lemma drop_map_seq {B} (g : nat -> B) (lo n : nat) :
  (lo <= n)%nat -> drop lo (map g (seq 0 n)) = map g (seq lo (n - lo)).
Proof.
  intros Hle. rewrite <- (take_drop_map_seq g lo (n - lo) n) by lia.
  symmetry. apply take_ge. rewrite length_drop, length_map, length_seq. lia.
Qed.

Section Generic.
Context {A : Type} `{Arith A}.

Lemma xcorr_wrapped (x y : list A) (maxlags : Z) :
  length x = length y -> x <> [] ->
  (Z.of_nat (length x) <= maxlags)%Z ->
  xcorr x y maxlags
  = Ok (map (normalized_at x y)
          (arange (Z.max (- (Z.of_nat (length x) - 1))
                         (2 * Z.of_nat (length x) - 1 - maxlags))
                  (Z.of_nat (length x)))).
Proof.
  intros Hlen Hx Hm.
  assert (HN : (1 <= length x)%nat) by (destruct x; simpl; [congruence|lia]).
  unfold xcorr.
  replace (length x =? length y)%nat with true by (symmetry; apply Nat.eqb_eq, Hlen).
  simpl.
  rewrite correlate_full_lags; [|exact Hx|destruct y; simpl in *; [lia|congruence]].
  unfold dot. rewrite !Nat.eqb_refl. simpl. f_equal.
  rewrite map_map.
  rewrite slice_wrapped; [| lia | rewrite length_map, length_seq; lia].
  rewrite length_map, length_seq.
  rewrite drop_map_seq by lia.
  unfold arange. rewrite map_map, map_seq_offset.
  replace (Z.to_nat (Z.of_nat (length x) -
             Z.max (- (Z.of_nat (length x) - 1))
                   (2 * Z.of_nat (length x) - 1 - maxlags)))
    with (length x + length y - 1 -
          Z.to_nat (Z.max 0 (Z.of_nat (length x) - 1 - maxlags
                             + Z.of_nat (length x + length y - 1))))%nat by lia.
  apply map_ext_in. intros i Hi. apply in_seq in Hi.
  unfold normalized_at. do 2 f_equal. lia.
Qed.

(** The docstring of [xcorr] promises [2*maxlags+1] entries.  When
    [maxlags] is not below the length of the vectors the slice wraps
    around: the result holds the lags from [max(-(N-1), 2N-1-maxlags)] to
    [N-1] only, which are [min(2N-1, maxlags-N+1)] entries, always fewer
    than promised. *)
Theorem xcorr_maxlags_too_large (x y : list A) (maxlags : Z) :
  length x = length y -> x <> [] ->
  (Z.of_nat (length x) <= maxlags)%Z ->
  exists c,
    xcorr x y maxlags = Ok c /\
    c = map (normalized_at x y)
            (arange (Z.max (- (Z.of_nat (length x) - 1))
                           (2 * Z.of_nat (length x) - 1 - maxlags))
                    (Z.of_nat (length x))) /\
    Z.of_nat (length c)
    = Z.min (2 * Z.of_nat (length x) - 1) (maxlags - Z.of_nat (length x) + 1) /\
    (Z.of_nat (length c) < 2 * maxlags + 1)%Z.
Proof.
  intros Hlen Hx Hm.
  assert (HN : (1 <= length x)%nat) by (destruct x; simpl; [congruence|lia]).
  eexists. split; [apply xcorr_wrapped; assumption|]. split; [reflexivity|].
  rewrite length_map, length_arange. split; lia.
Qed.

(** The loop that fills [results], for any description [row_of] of what
    one turn stores. *)
Lemma fill_results_with (row_of : list A * list A -> list A) (maxlag : Z) (c : nat)
    (pairs : list (list A * list A)) :
  (forall pr (r : ndarray A) (i : nat),
      In pr pairs -> ncols r = c -> (i < nrows r)%nat ->
      res_bind (xcorr (fst pr) (snd pr) maxlag) (set_row r i)
      = Ok (mkArray c (<[i := row_of pr]> (rows r)))) ->
  forall (results : ndarray A) (i : nat),
    ncols results = c ->
    (i + length pairs <= nrows results)%nat ->
    fill_results results i pairs maxlag =
    Ok (mkArray c
          (take i (rows results) ++ map row_of pairs
             ++ drop (i + length pairs) (rows results))).
Proof.
  induction pairs as [|[x y] pairs IH]; intros Hturn results i Hc Hi; simpl in *.
  - rewrite Nat.add_0_r, take_drop. destruct results; simpl in *. congruence.
  - assert (Hlt : (i < nrows results)%nat).
    { eapply Nat.lt_le_trans; [|exact Hi]. apply Nat.lt_add_pos_r, Nat.lt_0_succ. }
    pose proof (Hturn (x, y) results i (or_introl eq_refl) Hc Hlt) as Hstep.
    simpl in Hstep. unfold res_bind in Hstep at 1.
    destruct (xcorr x y maxlag) as [v|e]; [|discriminate]. simpl.
    rewrite Hstep. simpl.
    rewrite IH; simpl;
      [| intros pr r j Hin; apply Hturn; right; exact Hin
       | reflexivity
       | unfold nrows in *; simpl; rewrite length_insert;
         rewrite <- Nat.add_succ_r; exact Hi ].
    f_equal. f_equal. unfold nrows in Hlt.
    rewrite (take_S_r _ _ (row_of (x, y))) by (apply list_lookup_insert_eq, Hlt).
    rewrite take_insert_ge by apply Nat.le_refl.
    rewrite drop_insert_lt by apply Nat.lt_succ_r, Nat.le_add_r.
    rewrite <- app_assoc. simpl. rewrite Nat.add_succ_r. reflexivity.
Qed.

End Generic.

Lemma prepare_again (w1 w2 : Z) (d : gmap string pyval) :
  prepare w2 (prepare w1 d) = prepare w1 d.
Proof.
  destruct (DiffFacts.prepare_lookups w1 d) as (Hrs & Hbins & _).
  unfold prepare at 1.
  rewrite (delete_id (prepare w1 d)) by exact Hrs.
  rewrite bool_decide_eq_true_2; [reflexivity|].
  rewrite Hbins. eauto.
Qed.

Ltac note Hv :=
  match goal with
  | |- context [bind (if ?v then stderr_write ?m else ret tt) ?k ?s] =>
      rewrite (bind_ok _ k s tt _ (note_run v m s Hv))
  end.

Ltac reading :=
  match goal with
  | |- context [bind (read ?l) ?k ?s] =>
      rewrite (bind_ok _ k s _ _ (read_run l s))
  end.

Ltac lifting Heq :=
  match goal with
  | |- context [bind (lift ?r) ?k ?s] =>
      rewrite (bind_ok (lift r) k s _ s
                 (eq_trans (lift_run r s) (f_equal (fun x => (x, s)) Heq)))
  end.

Ltac failing Heq :=
  match goal with
  | |- context [bind (lift ?r) ?k ?s] =>
      rewrite (bind_raise (lift r) k s _ s
                 (eq_trans (lift_run r s) (f_equal (fun x => (x, s)) Heq)))
  end.

Section Run.
Context {A : Type} `{Arith A}.
Variable window_maker : string -> Z -> list Interval.
Variable shuffle : string -> list Interval -> list Interval.

(** [estimate_shift] sets ['bins'] only when it is missing, and it writes
    into the caller's dict.  So a dict that has been through one call
    keeps the window size of that call as its ['bins']: a second call
    with the same dict and another [windowsize] leaves the dict as the
    first call left it. *)
Theorem estimate_shift_keeps_first_bins
    (signal1 signal2 : Signal A) (genome1 genome2 : option string)
    (windowsize1 windowsize2 : Z) (thresh1 thresh2 : option A)
    (nwindows1 nwindows2 maxlag1 maxlag2 : Z) (verbose1 verbose2 : bool)
    (w : world) (l : nat) (d : gmap string pyval) :
  dicts w !! l = Some d ->
  d !! "bins" = None ->
  dicts (snd (estimate_shift window_maker shuffle signal2 genome2 windowsize2
                thresh2 nwindows2 maxlag2 (Some l) verbose2
                (snd (estimate_shift window_maker shuffle signal1 genome1
                        windowsize1 thresh1 nwindows1 maxlag1 (Some l) verbose1
                        w)))) !! l
    = Some (prepare windowsize1 d) /\
  prepare windowsize1 d !! "bins" = Some (VInt windowsize1).
Proof.
  intros Hl Hbins.
  set (w1 := snd (estimate_shift window_maker shuffle signal1 genome1 windowsize1
                    thresh1 nwindows1 maxlag1 (Some l) verbose1 w)).
  assert (Hw1 : deref w1 l = prepare windowsize1 d).
  { unfold deref, w1. cbn [store_of world_store].
    rewrite DiffFacts.estimate_shift_store, lookup_insert_eq.
    unfold deref. cbn [store_of world_store]. rewrite Hl. reflexivity. }
  rewrite DiffFacts.estimate_shift_store, lookup_insert_eq, Hw1. split.
  - f_equal. apply prepare_again.
  - destruct (DiffFacts.prepare_lookups windowsize1 d) as (_ & Hb & _).
    rewrite Hb, Hbins. reflexivity.
Qed.

(** What a call has written to [sys.stderr] and to the dict behind [l]
    when it has got as far as the messages [msgs]. *)
Definition reached (windowsize : Z) (l : nat) (verbose : bool)
    (msgs : list message) (w : world) : world :=
  mkWorld (<[l := prepare windowsize (deref w l)]> (dicts w))
          (stderr w ++ (if verbose then msgs else []))
          (sys_bound w).

(** A negative [maxlag] is not refused at the start, and the whole run is
    this: the call rewrites the keyword arguments, writes its first
    message and asks the signal source for the plus strand, then writes
    the second and asks for the minus strand; an exception of the source
    is what the call raises.  With both arrays it computes the mask
    (numpy may refuse to combine the two strands), writes the third
    message, and only then raises [ValueError], when it asks numpy for a
    matrix with [2*maxlag+1 < 0] columns. *)
Theorem estimate_shift_negative_maxlag
    (signal : Signal A) (genome : option string)
    (windowsize : Z) (thresh : option A) (nwindows maxlag : Z)
    (l : nat) (verbose : bool) (w : world) :
  (verbose = false \/ sys_bound w = true) ->
  (maxlag < 0)%Z ->
  estimate_shift window_maker shuffle signal genome windowsize thresh nwindows
    maxlag (Some l) verbose w
  = match array signal
            (random_subset window_maker shuffle signal genome windowsize nwindows)
            (<["read_strand" := VStr "+"]> (prepare windowsize (deref w l))) with
    | Raise e => (Raise e, reached windowsize l verbose [GettingPlus nwindows] w)
    | Ok plus =>
        match array signal
                (random_subset window_maker shuffle signal genome windowsize nwindows)
                (<["read_strand" := VStr "-"]> (prepare windowsize (deref w l))) with
        | Raise e =>
            (Raise e,
             reached windowsize l verbose
               [GettingPlus nwindows; GettingMinus nwindows] w)
        | Ok minus =>
            match logical_and (map (passes windowsize thresh) (rows plus))
                              (map (passes windowsize thresh) (rows minus)) with
            | Raise e =>
                (Raise e,
                 reached windowsize l verbose
                   [GettingPlus nwindows; GettingMinus nwindows] w)
            | Ok enough =>
                (Raise ValueError,
                 reached windowsize l verbose
                   [GettingPlus nwindows; GettingMinus nwindows;
                    Running (count_true enough)] w)
            end
        end
    end.
Proof.
  intros Hv Hm.
  assert (Hsay : forall msgs1 msgs2 w0,
            say msgs2 (say msgs1 w0) = say (msgs1 ++ msgs2) w0).
  { intros msgs1 msgs2 w0. unfold say. simpl. rewrite <- app_assoc. reflexivity. }
  assert (Hreached : forall msgs,
            say (if verbose then msgs else []) (prepared windowsize l w)
            = reached windowsize l verbose msgs w) by reflexivity.
  unfold estimate_shift. rewrite (bind_ok _ _ w l w) by reflexivity.
  rewrite prepare_run.
  note Hv. reading. rewrite deref_say, deref_prepared.
  fold (random_subset window_maker shuffle signal genome windowsize nwindows).
  destruct (array signal _ (<["read_strand" := VStr "+"]> _)) as [plus|e] eqn:Hplus.
  2:{ unfold bind at 1, lift. rewrite Hreached. reflexivity. }
  lifting (@eq_refl _ (Ok plus)).
  note Hv. reading. rewrite !deref_say, deref_prepared.
  destruct (array signal _ (<["read_strand" := VStr "-"]> _)) as [minus|e] eqn:Hminus.
  2:{ unfold bind at 1, lift. rewrite Hsay.
      destruct verbose; rewrite <- Hreached; reflexivity. }
  lifting (@eq_refl _ (Ok minus)).
  unfold astype_float, sum_axis1. rewrite !map_map.
  change (fun x => gtb (div (array_sum x) (of_int windowsize)) (default (of_int 0) thresh))
    with (passes windowsize thresh).
  rewrite Hsay.
  destruct (logical_and _ _) as [enough|e] eqn:Hmask.
  2:{ unfold bind at 1, lift.
      destruct verbose; rewrite <- Hreached; reflexivity. }
  lifting (@eq_refl _ (Ok enough)).
  note Hv. rewrite Hsay.
  assert (Hz : zeros (A := A) (count_true enough) (2 * maxlag + 1) = Raise ValueError).
  { unfold zeros.
    replace (2 * maxlag + 1 <? 0)%Z with true by (symmetry; apply Z.ltb_lt; lia).
    reflexivity. }
  failing Hz.
  destruct verbose; rewrite <- Hreached; reflexivity.
Qed.

(** [estimate_shift] up to its loop: once the signal source has given the
    two strands, the outcome is that of filling a matrix of zeros with the
    correlations of the windows that passed. *)
Lemma estimate_shift_fill
    (signal : Signal A) (genome : option string)
    (windowsize : Z) (thresh : option A) (nwindows maxlag : Z)
    (l : nat) (verbose : bool) (w : world) (plus minus : ndarray A) :
  (verbose = false \/ sys_bound w = true) ->
  array signal (random_subset window_maker shuffle signal genome windowsize nwindows)
    (<["read_strand" := VStr "+"]> (prepare windowsize (deref w l))) = Ok plus ->
  array signal (random_subset window_maker shuffle signal genome windowsize nwindows)
    (<["read_strand" := VStr "-"]> (prepare windowsize (deref w l))) = Ok minus ->
  nrows plus = nrows minus ->
  (0 <= maxlag)%Z ->
  fst (estimate_shift window_maker shuffle signal genome windowsize thresh nwindows
         maxlag (Some l) verbose w)
  = res_bind
      (fill_results
         (mkArray (Z.to_nat (2 * maxlag + 1))
            (repeat (repeat zero (Z.to_nat (2 * maxlag + 1)))
                    (length (kept windowsize thresh plus minus))))
         0 (kept windowsize thresh plus minus) maxlag)
      (fun results => Ok (arange (- maxlag) (maxlag + 1), results)).
Proof.
  intros Hv Hplus Hminus Hn Hm.
  unfold estimate_shift. rewrite (bind_ok _ _ w l w) by reflexivity.
  rewrite prepare_run.
  note Hv. reading. rewrite deref_say, deref_prepared.
  fold (random_subset window_maker shuffle signal genome windowsize nwindows).
  lifting Hplus.
  note Hv. reading. rewrite !deref_say, deref_prepared.
  lifting Hminus.
  unfold astype_float.
  lifting (enough_mask windowsize thresh plus minus Hn).
  note Hv.
  set (p := passes windowsize thresh).
  set (mask := zip_with andb (map p (rows plus)) (map p (rows minus))).
  unfold nrows in Hn.
  assert (Hmask : length mask = length (rows plus)).
  { unfold mask. rewrite length_zip_with, !length_map. clear - Hn. lia. }
  assert (Hcount : count_true mask = length (kept windowsize thresh plus minus)).
  { rewrite (count_true_select (rows plus)) by (symmetry; exact Hmask).
    apply length_select_both, Hn. }
  assert (Hzeros : zeros (A := A) (count_true mask) (2 * maxlag + 1)
                   = Ok (mkArray (Z.to_nat (2 * maxlag + 1))
                           (repeat (repeat zero (Z.to_nat (2 * maxlag + 1)))
                                   (length (kept windowsize thresh plus minus))))).
  { unfold zeros. replace (2 * maxlag + 1 <? 0)%Z with false
      by (symmetry; apply Z.ltb_ge; clear - Hm; lia).
    rewrite Hcount. reflexivity. }
  assert (Hmp : mask_rows plus mask
                = Ok (mkArray (ncols plus) (select (rows plus) mask))).
  { unfold mask_rows, nrows. rewrite Hmask, Nat.eqb_refl. reflexivity. }
  assert (Hmm : mask_rows minus mask
                = Ok (mkArray (ncols minus) (select (rows minus) mask))).
  { unfold mask_rows, nrows. rewrite <- Hn, Hmask, Nat.eqb_refl. reflexivity. }
  lifting Hzeros. lifting Hmp. lifting Hmm. simpl rows.
  unfold mask at 1 2. rewrite select_both by exact Hn.
  change (List.filter (fun pr => p (fst pr) && p (snd pr)) (zip (rows plus) (rows minus)))
    with (kept windowsize thresh plus minus).
  unfold bind, lift.
  destruct (fill_results _ 0 (kept windowsize thresh plus minus) maxlag);
    reflexivity.
Qed.

(** With two bins or more per window, a [maxlag] above the number of bins
    and at least one window that passes, [estimate_shift] raises
    [ValueError]: the correlation of the first window has fewer than
    [2*maxlag+1] entries and more than one, so it does not fit its row. *)
Theorem estimate_shift_maxlag_beyond_bins
    (signal : Signal A) (genome : option string)
    (windowsize : Z) (thresh : option A) (nwindows maxlag : Z)
    (l : nat) (verbose : bool) (w : world) (plus minus : ndarray A) :
  (verbose = false \/ sys_bound w = true) ->
  array signal (random_subset window_maker shuffle signal genome windowsize nwindows)
    (<["read_strand" := VStr "+"]> (prepare windowsize (deref w l))) = Ok plus ->
  array signal (random_subset window_maker shuffle signal genome windowsize nwindows)
    (<["read_strand" := VStr "-"]> (prepare windowsize (deref w l))) = Ok minus ->
  nrows plus = nrows minus ->
  well_shaped plus -> well_shaped minus -> ncols plus = ncols minus ->
  (2 <= ncols plus)%nat ->
  (Z.of_nat (ncols plus) < maxlag)%Z ->
  kept windowsize thresh plus minus <> [] ->
  fst (estimate_shift window_maker shuffle signal genome windowsize thresh nwindows
         maxlag (Some l) verbose w) = Raise ValueError.
Proof.
  intros Hv Hplus Hminus Hn Hwp Hwm Hc Hb Hm Hk.
  rewrite (estimate_shift_fill signal genome windowsize thresh nwindows maxlag
             l verbose w plus minus Hv Hplus Hminus Hn) by lia.
  pose proof (well_shaped_kept windowsize thresh plus minus Hwp Hwm Hc) as Hshape.
  destruct (kept windowsize thresh plus minus) as [|[x y] ps]; [congruence|].
  apply Forall_cons in Hshape. destruct Hshape as [[Hx Hy] _]. simpl in Hx, Hy.
  simpl fill_results.
  rewrite xcorr_wrapped; [| congruence | destruct x; simpl in *; [lia|congruence] | lia].
  simpl. unfold set_row, nrows. simpl.
  rewrite length_map, length_arange.
  unfold broadcast_len.
  replace (_ =? Z.to_nat (2 * maxlag + 1))%nat with false
    by (symmetry; apply Nat.eqb_neq; lia).
  replace (_ =? 1)%nat with false by (symmetry; apply Nat.eqb_neq; lia).
  replace (Z.to_nat (2 * maxlag + 1) =? 1)%nat with false
    by (symmetry; apply Nat.eqb_neq; lia).
  reflexivity.
Qed.

(** With [maxlag] equal to the number of bins nothing is raised, and the
    matrix is not one of correlations by lag: the correlation that [xcorr]
    returns has one entry, the one at lag [bins - 1], and numpy repeats it
    over the whole row. *)
Theorem estimate_shift_maxlag_equal_bins
    (signal : Signal A) (genome : option string)
    (windowsize : Z) (thresh : option A) (nwindows maxlag : Z)
    (l : nat) (verbose : bool) (w : world) (plus minus : ndarray A) :
  (verbose = false \/ sys_bound w = true) ->
  array signal (random_subset window_maker shuffle signal genome windowsize nwindows)
    (<["read_strand" := VStr "+"]> (prepare windowsize (deref w l))) = Ok plus ->
  array signal (random_subset window_maker shuffle signal genome windowsize nwindows)
    (<["read_strand" := VStr "-"]> (prepare windowsize (deref w l))) = Ok minus ->
  nrows plus = nrows minus ->
  well_shaped plus -> well_shaped minus -> ncols plus = ncols minus ->
  (1 <= ncols plus)%nat ->
  maxlag = Z.of_nat (ncols plus) ->
  fst (estimate_shift window_maker shuffle signal genome windowsize thresh nwindows
         maxlag (Some l) verbose w)
  = Ok (arange (- maxlag) (maxlag + 1),
        mkArray (Z.to_nat (2 * maxlag + 1))
          (map (fun pr => repeat (normalized_at (fst pr) (snd pr) (maxlag - 1))
                                 (Z.to_nat (2 * maxlag + 1)))
               (kept windowsize thresh plus minus))).
Proof.
  intros Hv Hplus Hminus Hn Hwp Hwm Hc Hb Hm.
  rewrite (estimate_shift_fill signal genome windowsize thresh nwindows maxlag
             l verbose w plus minus Hv Hplus Hminus Hn) by lia.
  pose proof (well_shaped_kept windowsize thresh plus minus Hwp Hwm Hc) as Hshape.
  rewrite (fill_results_with
             (fun pr => repeat (normalized_at (fst pr) (snd pr) (maxlag - 1))
                               (Z.to_nat (2 * maxlag + 1)))
             maxlag (Z.to_nat (2 * maxlag + 1))).
  - simpl. rewrite drop_ge by (rewrite repeat_length; apply Nat.le_refl).
    rewrite app_nil_r. reflexivity.
  - intros [x y] r i Hin Hr Hi. simpl.
    rewrite Forall_forall in Hshape.
    destruct (Hshape (x, y)) as [Hx Hy]; [apply list_elem_of_In, Hin|].
    simpl in Hx, Hy.
    rewrite xcorr_wrapped; [| congruence | destruct x; simpl in *; [lia|congruence] | lia].
    simpl. unfold set_row.
    replace (i <? nrows r)%nat with true by (symmetry; apply Nat.ltb_lt, Hi).
    rewrite length_map, length_arange, Hr, Hx.
    replace (Z.to_nat (Z.of_nat (ncols plus) -
               Z.max (- (Z.of_nat (ncols plus) - 1))
                     (2 * Z.of_nat (ncols plus) - 1 - maxlag))) with 1%nat by lia.
    unfold broadcast_len.
    replace (1 =? Z.to_nat (2 * maxlag + 1))%nat with false
      by (symmetry; apply Nat.eqb_neq; lia).
    simpl. rewrite Nat.eqb_refl.
    replace (Z.max (- (Z.of_nat (ncols plus) - 1))
                   (2 * Z.of_nat (ncols plus) - 1 - maxlag)) with (maxlag - 1)%Z by lia.
    unfold arange.
    replace (Z.to_nat (Z.of_nat (ncols plus) - (maxlag - 1))) with 1%nat by lia.
    simpl. unfold stretch. simpl. rewrite Z.add_0_r.
    destruct (Z.to_nat (2 * maxlag + 1)) as [|[|k]] eqn:Hk; [lia|lia|reflexivity].
  - reflexivity.
  - unfold nrows. simpl. rewrite repeat_length. apply Nat.le_refl.
Qed.

End Run.

(** *** Sample runs *)

Lemma xcorr_maxlags_too_large_witness :
  exists c,
    xcorr [1; 2]%float [3; 4]%float 5 = Ok c /\
    c = map (normalized_at [1; 2]%float [3; 4]%float)
            (arange (Z.max (- (Z.of_nat (length [1; 2]%float) - 1))
                           (2 * Z.of_nat (length [1; 2]%float) - 1 - 5))
                    (Z.of_nat (length [1; 2]%float))) /\
    Z.of_nat (length c)
    = Z.min (2 * Z.of_nat (length [1; 2]%float) - 1)
            (5 - Z.of_nat (length [1; 2]%float) + 1) /\
    (Z.of_nat (length c) < 2 * 5 + 1)%Z.
Proof.
  apply (xcorr_maxlags_too_large [1; 2]%float [3; 4]%float 5).
  - reflexivity.
  - discriminate.
  - simpl. lia.
Defined.

(** A world in which the keyword arguments of the [xcorr] example are the
    dict at reference 0. *)
Definition with_kwargs : world := mkWorld {[ 0%nat := DiffFacts.xcorr_kwargs ]} [] false.

Lemma estimate_shift_keeps_first_bins_witness :
  dicts (snd (estimate_shift no_windows no_shuffle two_strands None 5
                (Some 0.5%float) 1000 1 (Some 0%nat) false
                (snd (estimate_shift no_windows no_shuffle two_strands None 3
                        (Some 0.5%float) 1000 1 (Some 0%nat) false
                        with_kwargs)))) !! 0%nat
    = Some (prepare 3 DiffFacts.xcorr_kwargs) /\
  prepare 3 DiffFacts.xcorr_kwargs !! "bins" = Some (VInt 3).
Proof.
  apply (estimate_shift_keeps_first_bins no_windows no_shuffle
           two_strands two_strands None None 3 5 (Some 0.5%float) (Some 0.5%float)
           1000 1000 1 1 false false with_kwargs 0%nat DiffFacts.xcorr_kwargs).
  - reflexivity.
  - reflexivity.
Defined.

(** The same, in a module that runs as a script: [sys] is bound. *)
Definition as_script : world := mkWorld {[ 0%nat := DiffFacts.xcorr_kwargs ]} [] true.

Lemma estimate_shift_negative_maxlag_witness :
  estimate_shift no_windows no_shuffle two_strands None 3 (Some 0.5%float)
    1000 (-1) (Some 0%nat) true as_script
  = (Raise ValueError,
     mkWorld {[ 0%nat := prepare 3 DiffFacts.xcorr_kwargs ]}
             [GettingPlus 1000; GettingMinus 1000; Running 1] true).
Proof.
  rewrite (estimate_shift_negative_maxlag no_windows no_shuffle two_strands None 3
             (Some 0.5%float) 1000 (-1) 0%nat true as_script).
  - vm_compute. reflexivity.
  - right. reflexivity.
  - lia.
Defined.

Lemma estimate_shift_maxlag_beyond_bins_witness :
  fst (estimate_shift no_windows no_shuffle two_strands None 3 (Some 0.5%float)
         1000 4 (Some 0%nat) false with_kwargs) = Raise ValueError.
Proof.
  apply (estimate_shift_maxlag_beyond_bins no_windows no_shuffle two_strands None 3
           (Some 0.5%float) 1000 4 0%nat false with_kwargs plus_rows minus_rows).
  - left. reflexivity.
  - reflexivity.
  - reflexivity.
  - reflexivity.
  - repeat constructor.
  - repeat constructor.
  - reflexivity.
  - simpl. lia.
  - simpl. lia.
  - vm_compute. discriminate.
Defined.

Lemma estimate_shift_maxlag_equal_bins_witness :
  fst (estimate_shift no_windows no_shuffle two_strands None 3 (Some 0.5%float)
         1000 3 (Some 0%nat) false with_kwargs)
  = Ok (arange (- 3) (3 + 1),
        mkArray (Z.to_nat (2 * 3 + 1))
          (map (fun pr => repeat (normalized_at (fst pr) (snd pr) (3 - 1))
                                 (Z.to_nat (2 * 3 + 1)))
               (kept 3 (Some 0.5%float) plus_rows minus_rows))).
Proof.
  apply (estimate_shift_maxlag_equal_bins no_windows no_shuffle two_strands None 3
           (Some 0.5%float) 1000 3 0%nat false with_kwargs plus_rows minus_rows).
  - left. reflexivity.
  - reflexivity.
  - reflexivity.
  - reflexivity.
  - repeat constructor.
  - repeat constructor.
  - reflexivity.
  - simpl. lia.
  - reflexivity.
Defined.

End LagFacts.

(** ** Cross-correlation as a function of its vectors *)

Module CorrelationFacts.

Import Shift ShiftFacts.

Lemma In_slice {B} (l : list B) (a b : Z) (v : B) :
  In v (slice l a b) -> In v l.
Proof.
  unfold slice. intros Hin.
  apply list_elem_of_In in Hin. apply list_elem_of_In.
  eapply subseteq_drop, subseteq_take, Hin.
Qed.

(** The entries of [xcorr] are correlations at some lag, normalized,
    whatever [maxlags] is. *)
Lemma xcorr_entries {A} `{Arith A} (x y : list A) (maxlags : Z) (c : list A) (v : A) :
  xcorr x y maxlags = Ok c -> In v c ->
  exists k : Z, v = normalized_at x y k.
Proof.
  unfold xcorr. destruct (length x =? length y)%nat eqn:Hlen; simpl; [|discriminate].
  apply Nat.eqb_eq in Hlen. unfold dot. rewrite !Nat.eqb_refl.
  destruct (correlate_full x y) as [full|e] eqn:Hfull; simpl; [|discriminate].
  intros Hc Hin. inversion Hc; subst c. clear Hc.
  apply In_slice, in_map_iff in Hin. destruct Hin as (u & <- & Hu).
  destruct x as [|a x], y as [|b y]; try discriminate Hfull.
  inversion Hfull; subst full. apply in_map_iff in Hu.
  destruct Hu as (j & <- & _). eexists. reflexivity.
Qed.

Lemma map_reversed {B C} (f : B -> C) (l : list B) :
  map f (reverse l) = reverse (map f l).
Proof. exact (fmap_reverse f l). Qed.

(** *** Symmetry *)

Section Commutative.
Context {A : Type} `{Arith A}.
Hypothesis mul_comm : forall a b : A, mul a b = mul b a.

Lemma fold_inner_comm (x : list A) : forall (y : list A) (a : A),
  fold_left (fun acc p => add acc (mul (fst p) (snd p))) (zip x y) a
  = fold_left (fun acc p => add acc (mul (fst p) (snd p))) (zip y x) a.
Proof.
  induction x as [|u x IH]; intros [|v y] a; simpl; try reflexivity.
  rewrite (mul_comm u v). apply IH.
Qed.

Lemma inner_comm (x y : list A) : inner x y = inner y x.
Proof. apply fold_inner_comm. Qed.

Lemma correlate_at_swap (x y : list A) (k : Z) :
  correlate_at y x k = correlate_at x y (- k).
Proof.
  unfold correlate_at.
  destruct (0 <=? k)%Z eqn:Hk, (0 <=? - k)%Z eqn:Hk';
    try apply Z.leb_le in Hk; try apply Z.leb_le in Hk';
    try apply Z.leb_gt in Hk; try apply Z.leb_gt in Hk'.
  - replace k with 0%Z by lia. simpl. apply inner_comm.
  - rewrite Z.opp_involutive. apply inner_comm.
  - apply inner_comm.
  - lia.
Qed.

Lemma normalized_at_swap (x y : list A) (k : Z) :
  normalized_at y x k = normalized_at x y (- k).
Proof.
  unfold normalized_at.
  rewrite correlate_at_swap, (mul_comm (inner y y)). reflexivity.
Qed.

Lemma reverse_arange (m : Z) :
  reverse (arange (- m) (m + 1)) = map Z.opp (arange (- m) (m + 1)).
Proof.
  apply list_eq. intros i.
  destruct (decide (i < Z.to_nat (2 * m + 1))%nat) as [Hi|Hi].
  - rewrite reverse_lookup by (rewrite length_arange; lia).
    rewrite lookup_map, length_arange, !lookup_arange by lia.
    simpl. f_equal. lia.
  - rewrite !lookup_ge_None_2; [reflexivity| |];
      rewrite ?length_reverse, ?length_map, length_arange; lia.
Qed.

(** Swapping the two vectors mirrors the lags: where multiplication
    commutes, as it does in binary64, [xcorr(y, x)] is [xcorr(x, y)] read
    backwards. *)
Theorem xcorr_swap_reverses (x y : list A) (maxlags : Z) (c : list A) :
  length x = length y ->
  (0 <= maxlags < Z.of_nat (length x))%Z ->
  xcorr x y maxlags = Ok c ->
  xcorr y x maxlags = Ok (reverse c).
Proof.
  intros Hlen Hm Hc.
  rewrite xcorr_lags in Hc by assumption. inversion Hc; subst c.
  rewrite xcorr_lags by (rewrite <- ?Hlen; auto).
  f_equal. rewrite <- map_reversed, reverse_arange, map_map.
  apply map_ext. intros k. apply normalized_at_swap.
Qed.

End Commutative.

(** Multiplication in binary64 commutes. *)
Lemma SFmul_comm (prec emax : Z) (a b : SpecFloat.spec_float) :
  SpecFloat.SFmul prec emax a b = SpecFloat.SFmul prec emax b a.
Proof.
  destruct a as [sa|sa| |sa ma ea], b as [sb|sb| |sb mb eb]; simpl;
    try rewrite (xorb_comm sa sb); try reflexivity.
  rewrite (Pos.mul_comm ma mb), (Z.add_comm ea eb). reflexivity.
Qed.

Lemma float64_mul_comm (a b : PrimFloat.float) : mul a b = mul b a.
Proof.
  simpl. apply FloatAxioms.Prim2SF_inj.
  rewrite !FloatAxioms.mul_spec. apply SFmul_comm.
Qed.

(** *** Exact arithmetic *)

Lemma fold_inner_acc (l : list (R * R)) : forall a : R,
  fold_left (fun acc p => acc + fst p * snd p)%R l a
  = (a + fold_left (fun acc p => acc + fst p * snd p)%R l 0)%R.
Proof.
  induction l as [|p l IH]; intros a; simpl; [lra|].
  rewrite (IH (a + _)%R), (IH (0 + _)%R). lra.
Qed.

Lemma inner_cons (a b : R) (x y : list R) :
  inner (a :: x) (b :: y) = (a * b + inner x y)%R.
Proof.
  unfold inner. simpl. rewrite fold_inner_acc. lra.
Qed.

Lemma inner_nil_r (x : list R) : inner x [] = 0%R.
Proof. destruct x; reflexivity. Qed.

Lemma inner_self_nonneg (x : list R) : (0 <= inner x x)%R.
Proof. apply (inner_fold_ge x 0%R). Qed.

Lemma inner_self_drop (k : nat) : forall x : list R,
  (inner (drop k x) (drop k x) <= inner x x)%R.
Proof.
  induction k as [|k IH]; intros [|a x]; simpl; try lra.
  rewrite inner_cons. specialize (IH x). nra.
Qed.

(** Cauchy and Schwarz, over the common length of the two vectors. *)
Lemma inner_square_le (x : list R) : forall y : list R,
  (inner x y * inner x y <= inner x x * inner y y)%R.
Proof.
  induction x as [|a x IH]; intros [|b y].
  - change (inner (@nil R) []) with 0%R. lra.
  - change (inner [] (b :: y)) with 0%R. change (inner (@nil R) []) with 0%R. lra.
  - rewrite !inner_nil_r. lra.
  - rewrite !inner_cons. specialize (IH y).
    pose proof (inner_self_nonneg x) as HA.
    pose proof (inner_self_nonneg y) as HB.
    set (S := inner x y) in *. set (P := inner x x) in *. set (Q := inner y y) in *.
    destruct (Rle_lt_or_eq_dec 0 Q HB) as [Hpos|Hzero].
    + assert (Hid : (Q * (a * a * Q + P * b * b - 2 * a * b * S)
                     = (a * Q - b * S) * (a * Q - b * S) + b * b * (P * Q - S * S))%R)
        by ring.
      assert (Hge : (0 <= Q * (a * a * Q + P * b * b - 2 * a * b * S))%R).
      { rewrite Hid. apply Rplus_le_le_0_compat.
        - pose proof (Rle_0_sqr (a * Q - b * S)) as Hsq. unfold Rsqr in Hsq. exact Hsq.
        - apply Rmult_le_pos; [|lra].
          pose proof (Rle_0_sqr b) as Hsq. unfold Rsqr in Hsq. exact Hsq. }
      assert (Hmid : (0 <= a * a * Q + P * b * b - 2 * a * b * S)%R).
      { destruct (Rle_or_lt 0 (a * a * Q + P * b * b - 2 * a * b * S)) as [Hok|Hneg];
          [exact Hok|]. exfalso. nra. }
      nra.
    + rewrite <- Hzero in *. assert (HS : S = 0%R) by nra. rewrite HS. nra.
Qed.

Lemma correlate_at_square_le (x y : list R) (k : Z) :
  (correlate_at x y k * correlate_at x y k <= inner x x * inner y y)%R.
Proof.
  unfold correlate_at. destruct (0 <=? k)%Z.
  - eapply Rle_trans; [apply inner_square_le|].
    pose proof (inner_self_drop (Z.to_nat k) x).
    pose proof (inner_self_nonneg y).
    pose proof (inner_self_nonneg (drop (Z.to_nat k) x)). nra.
  - eapply Rle_trans; [apply inner_square_le|].
    pose proof (inner_self_drop (Z.to_nat (- k)) y).
    pose proof (inner_self_nonneg x).
    pose proof (inner_self_nonneg (drop (Z.to_nat (- k)) y)). nra.
Qed.

Lemma normalized_at_bounded (x y : list R) (k : Z) :
  (-1 <= normalized_at x y k <= 1)%R.
Proof.
  unfold normalized_at. simpl.
  pose proof (correlate_at_square_le x y k) as Hsq.
  pose proof (inner_self_nonneg x) as HA.
  pose proof (inner_self_nonneg y) as HB.
  set (c := correlate_at x y k) in *.
  set (P := (inner x x * inner y y)%R) in *.
  assert (HP : (0 <= P)%R) by (unfold P; nra).
  destruct (Rle_lt_or_eq_dec 0 P HP) as [Hpos|Hzero].
  - pose proof (sqrt_lt_R0 P Hpos) as Hs.
    pose proof (sqrt_sqrt P HP) as Hss.
    set (s := R_sqrt.sqrt P) in *.
    assert (Hc : (- s <= c <= s)%R) by (split; nra).
    split.
    + apply Rmult_le_reg_r with s; [exact Hs|].
      unfold Rdiv. rewrite Rmult_assoc, Rinv_l by lra. lra.
    + apply Rmult_le_reg_r with s; [exact Hs|].
      unfold Rdiv. rewrite Rmult_assoc, Rinv_l by lra. lra.
  - assert (Hc : c = 0%R) by nra.
    rewrite Hc. unfold Rdiv. rewrite Rmult_0_l. lra.
Qed.

(** In exact arithmetic, for vectors that are not all zero, every entry
    that [xcorr] returns lies between -1 and 1, whatever [maxlags] is: the
    normalization bounds the correlation at every lag, not only at lag 0. *)
Theorem xcorr_entries_bounded (x y : list R) (maxlags : Z) (c : list R) (v : R) :
  Exists (fun a => a <> 0%R) x ->
  Exists (fun b => b <> 0%R) y ->
  xcorr x y maxlags = Ok c -> In v c -> (-1 <= v <= 1)%R.
Proof.
  intros _ _ Hc Hin. destruct (xcorr_entries x y maxlags c v Hc Hin) as [k ->].
  apply normalized_at_bounded.
Qed.

(** Rescaling *)

Lemma inner_scale (a b : R) (x : list R) : forall y : list R,
  inner (map (Rmult a) x) (map (Rmult b) y) = (a * b * inner x y)%R.
Proof.
  induction x as [|u x IH]; intros [|v y]; simpl.
  - unfold inner. simpl. lra.
  - unfold inner. simpl. lra.
  - rewrite !inner_nil_r. lra.
  - rewrite !inner_cons, IH. lra.
Qed.

Lemma drop_map {B C} (f : B -> C) (n : nat) (l : list B) :
  drop n (map f l) = map f (drop n l).
Proof. symmetry. exact (fmap_drop f n l). Qed.

Lemma correlate_at_scale (a b : R) (x y : list R) (k : Z) :
  correlate_at (map (Rmult a) x) (map (Rmult b) y) k
  = (a * b * correlate_at x y k)%R.
Proof.
  unfold correlate_at. destruct (0 <=? k)%Z.
  - rewrite drop_map. apply inner_scale.
  - rewrite drop_map. apply inner_scale.
Qed.

Lemma normalized_at_scale (a b : R) (x y : list R) (k : Z) :
  (0 < a)%R -> (0 < b)%R ->
  normalized_at (map (Rmult a) x) (map (Rmult b) y) k = normalized_at x y k.
Proof.
  intros Ha Hb. unfold normalized_at. simpl.
  rewrite correlate_at_scale, !inner_scale.
  replace (a * a * inner x x * (b * b * inner y y))%R
    with ((a * b) * (a * b) * (inner x x * inner y y))%R by ring.
  assert (Hab : (0 < a * b)%R) by nra.
  rewrite sqrt_mult_alt by nra.
  rewrite sqrt_square by lra.
  unfold Rdiv. rewrite Rinv_mult.
  set (s := (/ R_sqrt.sqrt (inner x x * inner y y))%R).
  set (c := correlate_at x y k).
  transitivity (c * s * ((a * b) * / (a * b)))%R; [ring|].
  rewrite Rinv_r by lra. ring.
Qed.

(** In exact arithmetic [xcorr] does not see the units of its arguments:
    for vectors that are not all zero, multiplying either by a positive
    factor changes nothing, neither the correlations nor the errors. *)
Theorem xcorr_scale_invariant (a b : R) (x y : list R) (maxlags : Z) :
  (0 < a)%R -> (0 < b)%R ->
  Exists (fun u => u <> 0%R) x ->
  Exists (fun v => v <> 0%R) y ->
  xcorr (map (Rmult a) x) (map (Rmult b) y) maxlags = xcorr x y maxlags.
Proof.
  intros Ha Hb _ _. unfold xcorr. rewrite !length_map.
  destruct (length x =? length y)%nat; simpl; [|reflexivity].
  unfold dot. rewrite !length_map, !Nat.eqb_refl.
  destruct x as [|u x], y as [|v y]; try reflexivity.
  rewrite !correlate_full_lags by (simpl; congruence).
  simpl res_bind. rewrite !length_map. f_equal. f_equal.
  rewrite !map_map. apply map_ext. intros j.
  exact (normalized_at_scale a b (u :: x) (v :: y) _ Ha Hb).
Qed.

(** *** Sample runs *)

Lemma xcorr_swap_reverses_witness :
  xcorr [0; 1]%float [1; 0]%float 1 = Ok (reverse [1; 0; 0]%float).
Proof.
  apply (xcorr_swap_reverses float64_mul_comm [1; 0]%float [0; 1]%float 1
           [1; 0; 0]%float).
  - reflexivity.
  - simpl. lia.
  - vm_compute. reflexivity.
Defined.

Lemma xcorr_entries_bounded_witness :
  exists c, xcorr [1; 2]%R [3; 4]%R 1 = Ok c /\
            forall v, In v c -> (-1 <= v <= 1)%R.
Proof.
  eexists. split; [reflexivity|].
  intros v Hin.
  eapply (xcorr_entries_bounded [1; 2]%R [3; 4]%R 1).
  - constructor. lra.
  - constructor. lra.
  - reflexivity.
  - exact Hin.
Defined.

Lemma xcorr_scale_invariant_witness :
  xcorr (map (Rmult 2) [1; 2]%R) (map (Rmult 3) [3; 4]%R) 1
  = xcorr [1; 2]%R [3; 4]%R 1.
Proof.
  apply (xcorr_scale_invariant 2 3 [1; 2]%R [3; 4]%R 1).
  - lra.
  - lra.
  - constructor. lra.
  - constructor. lra.
Defined.

End CorrelationFacts.

(** ** add_strand, the strip line, the script *)

Module StrandFacts.

Import Dispatch Strand.

(** One turn of the loop. *)
Lemma pad_fields_step (fields : list string) :
  pad_fields fields
  = if (length fields <? 5)%nat then pad_fields (fields ++ ["."]) else fields.
Proof.
  rewrite pad_fields_equation_1.
  assert (Hcase : forall b (e : (length fields <? 5)%nat = b),
            pad_fields_unfold_clause_1 fields (exist _ b e)
            = if b then pad_fields (fields ++ ["."]) else fields)
    by (intros [] e; reflexivity).
  apply (Hcase _ eq_refl).
Qed.

Lemma pad_fields_closed (n : nat) : forall fields : list string,
  (5 - length fields = n)%nat ->
  pad_fields fields = fields ++ repeat "."%string n.
Proof.
  induction n as [|n IH]; intros fields Hn; rewrite pad_fields_step.
  - replace (length fields <? 5)%nat with false
      by (symmetry; apply Nat.ltb_ge; lia).
    simpl. rewrite app_nil_r. reflexivity.
  - replace (length fields <? 5)%nat with true
      by (symmetry; apply Nat.ltb_lt; lia).
    rewrite IH by (rewrite length_app; simpl; lia).
    rewrite <- app_assoc. reflexivity.
Qed.

Section WithIntervals.
Variable fields_of : Interval -> list string.
Variable create_interval_from_list : list string -> Interval.

(** [add_strand] makes its interval from the fields of [f], padded with
    ["."] up to five, and the strand after them: the strand is the sixth
    field when [f] has five fields or fewer.  A feature that has a sixth
    field already keeps it, with all its other fields, and gets the strand
    as one field more. *)
Theorem add_strand_appends (f : Interval) (strand : string) :
  exists out,
    add_strand fields_of create_interval_from_list f strand
    = create_interval_from_list out /\
    out = fields_of f ++ repeat "."%string (5 - length (fields_of f)) ++ [strand] /\
    take (length (fields_of f)) out = fields_of f /\
    length out = S (Nat.max 5 (length (fields_of f))) /\
    out !! Nat.max 5 (length (fields_of f)) = Some strand.
Proof.
  eexists. split; [|split; [reflexivity|]].
  - unfold add_strand. rewrite (pad_fields_closed _ _ eq_refl), <- app_assoc.
    reflexivity.
  - split; [apply take_app_length|]. split.
    + rewrite !length_app, repeat_length. simpl. lia.
    + rewrite app_assoc. rewrite lookup_app_r;
        rewrite length_app, repeat_length; [|lia].
      replace (_ - _)%nat with 0%nat by lia. reflexivity.
Qed.

End WithIntervals.

End StrandFacts.

Module PlotFacts.

Import Dispatch DispatchFacts Diff Plot ShiftFacts.

Lemma take_rows_in_range {B} `{Arith B} (a : list (list B)) (row_order : list Z) :
  forall picked, take_rows a row_order = Ok picked ->
  Forall (fun k => (- Z.of_nat (length a) <= k < Z.of_nat (length a))%Z) row_order.
Proof.
  induction row_order as [|k rest IH]; intros picked Hp; simpl in Hp; [constructor|].
  destruct (getitem a k) as [row|] eqn:Hk; simpl in Hp; [|discriminate].
  destruct (take_rows a rest) as [rows'|] eqn:Hrest; simpl in Hp; [|discriminate].
  constructor; [|eapply IH; reflexivity].
  unfold getitem in Hk.
  destruct (k <? 0)%Z eqn:Hneg;
    [apply Z.ltb_lt in Hneg|apply Z.ltb_ge in Hneg];
    destruct ((0 <=? _) && _)%Z eqn:Hin; try discriminate;
    apply andb_true_iff in Hin; destruct Hin as [Hlo Hhi];
    apply Z.leb_le in Hlo; apply Z.ltb_lt in Hhi; lia.
Qed.

Lemma take_rows_ok {B} `{Arith B} (a : list (list B)) (row_order : list Z) :
  Forall (fun k => (- Z.of_nat (length a) <= k < Z.of_nat (length a))%Z) row_order ->
  exists picked, take_rows a row_order = Ok picked.
Proof.
  induction 1 as [|k rest Hk _ [picked IH]]; simpl; [eauto|].
  unfold getitem.
  set (k' := if (k <? 0)%Z then (k + Z.of_nat (length a))%Z else k).
  assert (Hk' : (0 <= k' < Z.of_nat (length a))%Z).
  { unfold k'. destruct (k <? 0)%Z eqn:Hneg;
      [apply Z.ltb_lt in Hneg|apply Z.ltb_ge in Hneg]; lia. }
  replace ((0 <=? k') && (k' <? Z.of_nat (length a)))%Z with true
    by (symmetry; apply andb_true_iff; split; [apply Z.leb_le|apply Z.ltb_lt]; lia).
  destruct (a !! Z.to_nat k') as [row|] eqn:Hrow;
    [|apply lookup_ge_None in Hrow; lia].
  simpl. rewrite IH. simpl. eauto.
Qed.

Lemma take_rows_raises {B} `{Arith B} (a : list (list B)) (row_order : list Z) :
  forall e, take_rows a row_order = Raise e -> e = IndexError.
Proof.
  induction row_order as [|j rest IH]; intros e Hp; simpl in Hp; [discriminate|].
  destruct (getitem a j) as [row|e'] eqn:Hj; simpl in Hp.
  - destruct (take_rows a rest) as [rows'|e''] eqn:Hrest; simpl in Hp;
      [discriminate|].
    inversion Hp; subst. apply IH. reflexivity.
  - inversion Hp; subst. unfold getitem in Hj.
    destruct ((0 <=? _) && _)%Z; [destruct (a !! _)|]; congruence.
Qed.

Lemma arange_in_range (n : nat) :
  Forall (fun k => (- Z.of_nat n <= k < Z.of_nat n)%Z) (arange 0 (Z.of_nat n)).
Proof.
  apply Forall_forall. intros k Hk. unfold arange in Hk.
  apply list_elem_of_In, in_map_iff in Hk. destruct Hk as (j & <- & Hj).
  apply in_seq in Hj. lia.
Qed.

Section WithArith.
Context {A : Type} `{Arith A}.

(** [plot] checks the row order when it draws the matrix, through
    [self.diffed_array[row_order]]: the strip line gets its features and
    the row order when every entry lies in [-nrows, nrows), and with an
    entry outside [IndexError] is raised and there is no line. *)
Theorem plot_checks_row_order (c : Chipseq A) (d : ndarray A)
    (fs : list Interval) (order : list Z) :
  diffed_array c = Some d ->
  self_features c = Some fs ->
  strip_line c (Some order)
  = if bool_decide
         (Forall (fun k => (- Z.of_nat (nrows d) <= k < Z.of_nat (nrows d))%Z) order)
    then Line (mkArtist fs order)
    else Raised IndexError.
Proof.
  intros Hd Hfs. unfold strip_line. rewrite Hd, Hfs. simpl.
  destruct (bool_decide _) eqn:Hall.
  - apply bool_decide_eq_true in Hall.
    destruct (take_rows_ok (rows d) order Hall) as [picked ->]. reflexivity.
  - apply bool_decide_eq_false in Hall.
    destruct (take_rows (rows d) order) as [picked|e] eqn:Hp.
    + exfalso. apply Hall. eapply take_rows_in_range, Hp.
    + rewrite (take_rows_raises _ _ _ Hp). reflexivity.
Qed.

(** With the default row order, and one row of the matrix per feature,
    the strip point [i] (the one drawn at height [i + 0.5]) stands for the
    feature [n-1-i]: the callback reads the row order backwards, so the
    points count the features from the last one. *)
Theorem default_row_order_counts_from_bottom (c : Chipseq A) (d : ndarray A)
    (fs : list Interval) (i : nat) :
  diffed_array c = Some d ->
  self_features c = Some fs ->
  nrows d = length fs ->
  (i < length fs)%nat ->
  exists line f,
    strip_line c None = Line line /\
    resolve line (Z.of_nat i) = Ok f /\
    fs !! (length fs - 1 - i)%nat = Some f.
Proof.
  intros Hd Hfs Hn Hi. unfold strip_line. rewrite Hd, Hfs. simpl.
  destruct (take_rows_ok (rows d) _ (arange_in_range (nrows d))) as [picked Hp].
  rewrite Hp, Hn.
  destruct (fs !! (length fs - 1 - i)%nat) as [f|] eqn:Hf;
    [|apply lookup_ge_None in Hf; lia].
  eexists _, f. split; [reflexivity|]. split; [|reflexivity].
  unfold resolve. simpl. unfold reversed, getitem.
  rewrite length_reverse, length_arange, Z.sub_0_r, Nat2Z.id.
  replace (Z.of_nat i <? 0)%Z with false by (symmetry; apply Z.ltb_ge; lia).
  replace ((0 <=? Z.of_nat i) && (Z.of_nat i <? Z.of_nat (length fs)))%Z with true
    by (symmetry; apply andb_true_iff; split; [apply Z.leb_le|apply Z.ltb_lt]; lia).
  rewrite Nat2Z.id, reverse_lookup by (rewrite length_arange; lia).
  rewrite length_arange, lookup_arange by lia.
  simpl.
  replace (0 + Z.of_nat (Z.to_nat (Z.of_nat (length fs) - 0) - S i))%Z
    with (Z.of_nat (length fs - 1 - i)) by lia.
  replace (Z.of_nat (length fs - 1 - i) <? 0)%Z with false
    by (symmetry; apply Z.ltb_ge; lia).
  replace ((0 <=? Z.of_nat (length fs - 1 - i))
           && (Z.of_nat (length fs - 1 - i) <? Z.of_nat (length fs)))%Z with true
    by (symmetry; apply andb_true_iff; split; [apply Z.leb_le|apply Z.ltb_lt]; lia).
  rewrite Nat2Z.id, Hf. reflexivity.
Qed.

End WithArith.

(** *** Sample runs *)

(** An object after [diff_array]: three features, three rows. *)
Definition plotted : Chipseq R :=
  mkChipseq DiffFacts.ip_source DiffFacts.control_source
    (Some [gene "a"; gene "b"; gene "c"]) (Some 1%nat) None None
    (Some (mkArray 2 [[1; 2]; [3; 4]; [5; 6]]%R)).

Lemma plot_checks_row_order_witness :
  strip_line plotted (Some [2; 0; 3]%Z)
  = if bool_decide
         (Forall (fun k => (- Z.of_nat (nrows (mkArray 2 [[1; 2]; [3; 4]; [5; 6]]%R)) <= k
                            < Z.of_nat (nrows (mkArray 2 [[1; 2]; [3; 4]; [5; 6]]%R)))%Z)
                 [2; 0; 3]%Z)
    then Line (mkArtist [gene "a"; gene "b"; gene "c"] [2; 0; 3]%Z)
    else Raised IndexError.
Proof.
  apply (plot_checks_row_order plotted (mkArray 2 [[1; 2]; [3; 4]; [5; 6]]%R)
           [gene "a"; gene "b"; gene "c"] [2; 0; 3]%Z).
  - reflexivity.
  - reflexivity.
Defined.

Lemma default_row_order_counts_from_bottom_witness :
  exists line f,
    strip_line plotted None = Line line /\
    resolve line (Z.of_nat 0) = Ok f /\
    [gene "a"; gene "b"; gene "c"] !! (length [gene "a"; gene "b"; gene "c"] - 1 - 0)%nat
    = Some f.
Proof.
  apply (default_row_order_counts_from_bottom plotted
           (mkArray 2 [[1; 2]; [3; 4]; [5; 6]]%R) [gene "a"; gene "b"; gene "c"] 0).
  - reflexivity.
  - reflexivity.
  - reflexivity.
  - simpl. lia.
Defined.

End PlotFacts.

Module ScriptFacts.

Import Script ShiftFacts.

Section Main.
Context {S : Type}.
Variable import_sys : S -> S.
Variable print_choices : M S unit.
Variable xcorr_example : M S unit.
Variable chipseq_example : M S unit.
Variable show : M S unit.

Definition known (ex : string) : M S unit :=
  if bool_decide (ex ∈ choices) then ret tt else raise ValueError.

(** What is left of [main] once the arguments have been read. *)
Definition run (examples : list string) : M S unit :=
  (for_ examples known ;;;
   (if bool_decide ("xcorr" ∈ examples) then xcorr_example else ret tt) ;;;
   (if bool_decide ("chipseq" ∈ examples) then chipseq_example else ret tt) ;;;
   show)%py.

Lemma slice_tail {B} (x : B) (l : list B) :
  slice (x :: l) 1 (Z.of_nat (length (x :: l))) = l.
Proof.
  unfold slice, slice_bound.
  replace (1 <? 0)%Z with false by reflexivity.
  replace (Z.of_nat (length (x :: l)) <? 0)%Z with false
    by (symmetry; apply Z.ltb_ge; lia).
  rewrite !Z.max_r, !Z.min_r by (simpl length; lia).
  rewrite Nat2Z.id. simpl. replace (length l - 0)%nat with (length l) by lia.
  apply firstn_all.
Qed.

Lemma main_reads (prog : string) (args : list string) (s : S) :
  main import_sys print_choices xcorr_example chipseq_example show (prog :: args) s
  = run args (import_sys s).
Proof.
  unfold main, run, modify, bind at 1. unfold bind at 1.
  unfold except_IndexError, lift. rewrite slice_tail. reflexivity.
Qed.

Lemma known_all (args : list string) (s : S) :
  Forall (fun ex => ex ∈ choices) args ->
  for_ args known s = (Ok tt, s).
Proof.
  induction 1 as [|ex args Hex _ IH]; simpl; [reflexivity|].
  unfold bind, known at 1. rewrite bool_decide_eq_true_2 by exact Hex.
  simpl. exact IH.
Qed.

Lemma known_stops (before : list string) (ex : string) (after : list string) (s : S) :
  Forall (fun ex => ex ∈ choices) before ->
  ex ∉ choices ->
  for_ (before ++ ex :: after) known s = (Raise ValueError, s).
Proof.
  intros Hb Hex. induction Hb as [|b before Hin _ IH]; simpl.
  - unfold bind, known at 1. rewrite bool_decide_eq_false_2 by exact Hex. reflexivity.
  - unfold bind, known at 1. rewrite bool_decide_eq_true_2 by exact Hin.
    simpl. exact IH.
Qed.

(** An argument that is not the name of an example stops the script with
    [ValueError] before either example has run, also when the names of
    examples come before it on the command line: [sys] has been imported
    and nothing else has happened. *)
Theorem main_rejects_unknown_example
    (prog : string) (before : list string) (ex : string) (after : list string)
    (s : S) :
  ex ∉ choices ->
  main import_sys print_choices xcorr_example chipseq_example show
       (prog :: before ++ ex :: after) s
  = (Raise ValueError, import_sys s).
Proof.
  intros Hex. rewrite main_reads. unfold run.
  assert (Hfirst : exists b e a, before ++ ex :: after = b ++ e :: a /\
            Forall (fun ex => ex ∈ choices) b /\ e ∉ choices).
  { clear - Hex. induction before as [|x before IH]; simpl.
    - exists [], ex, after. repeat split; [constructor|exact Hex].
    - destruct (decide (x ∈ choices)) as [Hx|Hx].
      + destruct IH as (b & e & a & Heq & Hb & He).
        exists (x :: b), e, a. rewrite Heq. repeat split; [constructor|]; assumption.
      + exists [], x, (before ++ ex :: after). repeat split; [constructor|exact Hx]. }
  destruct Hfirst as (b & e & a & -> & Hb & He).
  apply bind_raise. apply known_stops; assumption.
Qed.

(** With only names of examples on the command line, neither their order
    nor their number matters: two command lines that name the same
    examples run the same script, which is the xcorr example if named,
    then the chipseq example if named, then [plt.show()].  The list of
    choices is never printed. *)
Theorem main_ignores_order_and_repeats
    (prog prog' : string) (args args' : list string) (s : S) :
  Forall (fun ex => ex ∈ choices) args ->
  (forall ex, ex ∈ args <-> ex ∈ args') ->
  main import_sys print_choices xcorr_example chipseq_example show (prog :: args) s
  = main import_sys print_choices xcorr_example chipseq_example show (prog' :: args') s
  /\
  main import_sys print_choices xcorr_example chipseq_example show (prog :: args) s
  = ((if bool_decide ("xcorr" ∈ args) then xcorr_example else ret tt) ;;;
     (if bool_decide ("chipseq" ∈ args) then chipseq_example else ret tt) ;;;
     show)%py (import_sys s).
Proof.
  intros Hargs Hsame.
  assert (Hargs' : Forall (fun ex => ex ∈ choices) args').
  { rewrite Forall_forall in Hargs. apply Forall_forall. intros ex Hex.
    apply Hargs, Hsame, Hex. }
  rewrite !main_reads. unfold run.
  rewrite (bind_ok _ _ _ tt _ (known_all args _ Hargs)).
  rewrite (bind_ok _ _ _ tt _ (known_all args' _ Hargs')).
  split; [|reflexivity].
  rewrite (bool_decide_ext _ _ (Hsame "xcorr"%string)).
  rewrite (bool_decide_ext _ _ (Hsame "chipseq"%string)).
  reflexivity.
Qed.

End Main.

(** *** Sample runs *)

(** A script whose steps only write their names down. *)
Definition logged (name : string) : M (list string) unit :=
  modify (fun tr => tr ++ [name]).

Lemma main_rejects_unknown_example_witness :
  main (fun tr => tr ++ ["import sys"]) (logged "choices") (logged "xcorr")
       (logged "chipseq") (logged "show")
       ("chipseq.py" :: ["xcorr"] ++ "peaks" :: ["chipseq"]) []
  = (Raise ValueError, [] ++ ["import sys"]).
Proof.
  apply (main_rejects_unknown_example (fun tr => tr ++ ["import sys"])
           (logged "choices") (logged "xcorr") (logged "chipseq") (logged "show")
           "chipseq.py" ["xcorr"] "peaks" ["chipseq"] []).
  apply (bool_decide_unpack _). vm_compute. exact I.
Defined.

Lemma main_ignores_order_and_repeats_witness :
  main (fun tr => tr ++ ["import sys"]) (logged "choices") (logged "xcorr")
       (logged "chipseq") (logged "show")
       ("chipseq.py" :: ["chipseq"; "xcorr"; "chipseq"]) []
  = main (fun tr => tr ++ ["import sys"]) (logged "choices") (logged "xcorr")
         (logged "chipseq") (logged "show")
         ("python" :: ["xcorr"; "chipseq"]) []
  /\
  main (fun tr => tr ++ ["import sys"]) (logged "choices") (logged "xcorr")
       (logged "chipseq") (logged "show")
       ("chipseq.py" :: ["chipseq"; "xcorr"; "chipseq"]) []
  = ((if bool_decide ("xcorr" ∈ ["chipseq"; "xcorr"; "chipseq"])
      then logged "xcorr" else ret tt) ;;;
     (if bool_decide ("chipseq" ∈ ["chipseq"; "xcorr"; "chipseq"])
      then logged "chipseq" else ret tt) ;;;
     logged "show")%py ([] ++ ["import sys"]).
Proof.
  apply (main_ignores_order_and_repeats (fun tr => tr ++ ["import sys"])
           (logged "choices") (logged "xcorr") (logged "chipseq") (logged "show")
           "chipseq.py" "python" ["chipseq"; "xcorr"; "chipseq"] ["xcorr"; "chipseq"] []).
  - apply (bool_decide_unpack _). vm_compute. exact I.
  - intros ex. rewrite !elem_of_cons, !elem_of_nil. tauto.
Defined.

End ScriptFacts.
